(** * AsyncApiQueue: admission control over a shared Redis store

    A shallow embedding of the two copies of the [AsyncApiQueue] class
    (src/lib/async-api-queue.js and the older copy in src/unnamed/part_000)
    together with the small part of the JavaScript runtime and of the
    node_redis client that the class relies on.

    - JavaScript values are the ones that flow through the class: [null],
      booleans, numbers and strings.  Numbers are integers (or NaN): queue
      sizes and counts are integers, and IEEE rounding is not modelled, so
      the statements about counting are made for counts up to
      [Number.MAX_SAFE_INTEGER], where the doubles are the integers.
    - The Redis keyspace is a finite map from keys to strings with an
      optional remaining time-to-live.  The client sends every argument as a
      string ([client.set(key, 0)] stores ["0"]) and the reply to GET is a
      string or [null]; the key prefix of the client is applied to every key
      alike and is left out.
    - An [async] function is a state transformer over the store that
      settles to a resolved or a rejected promise.  Store failures are
      scheduled by a list of faults, consumed one per command in the order
      the commands reach the server; a fault is a command that the server
      refuses, which leaves the keyspace as it is (a reply lost after the
      server has run the command is not modelled); an error object is always
      truthy, so [if (error)] in [setRedis], [getRedis] and [delRedis] is
      the test for a failed command.
    - One instance runs one operation at a time; races between instances
      are outside this development, but for the delete of [removeRequest]
      that arrives after the slot has gone ([removeRequest_rest]). *)

From Stdlib Require Import ZArith String Ascii List Lia DecimalString DecimalZ.
From stdpp Require Import gmap strings list fin_maps.

Local Open Scope string_scope.
Local Open Scope Z_scope.

(** ** JavaScript values and the coercions the class triggers *)

(** Numbers are modelled on the integers.  JavaScript numbers are doubles:
    up to [Number.MAX_SAFE_INTEGER] in absolute value they are the integers,
    [++] and [--] are exact and [String] gives the decimal digits; beyond it
    they round.  The statements about counting below are made for counts
    within that range. *)
Inductive number := Fin (z : Z) | NaN.

Definition MAX_SAFE_INTEGER : Z := 9007199254740991.

Definition safe (n : Z) : Prop := - MAX_SAFE_INTEGER <= n <= MAX_SAFE_INTEGER.

Inductive jsval :=
  | JNull
  | JBool (b : bool)
  | JNum (n : number)
  | JStr (s : string).

(** [String(n)] for a safe integer: decimal digits, with a minus sign. *)
Definition NumberToString (n : number) : string :=
  match n with
  | Fin z => NilZero.string_of_int (Z.to_int z)
  | NaN => "NaN"
  end.

(** [Number(s)] restricted to the integer literals: an optional minus sign
    followed by decimal digits, and the empty string (which is 0).  Every
    other string is NaN here; fractions, exponents, radix prefixes and
    surrounding white space are outside the integer model, and the value is
    the JavaScript one for the literals of safe integers. *)
Definition StringToNumber (s : string) : number :=
  match s with
  | EmptyString => Fin 0
  | _ => match NilZero.int_of_string s with
         | Some i => Fin (Z.of_int i)
         | None => NaN
         end
  end.

Definition ToNumber (v : jsval) : number :=
  match v with
  | JNull => Fin 0
  | JBool b => Fin (if b then 1 else 0)
  | JNum n => n
  | JStr s => StringToNumber s
  end.

Definition ToString (v : jsval) : string :=
  match v with
  | JNull => "null"
  | JBool b => if b then "true" else "false"
  | JNum n => NumberToString n
  | JStr s => s
  end.

(** Truthiness, as tested by [!x] and [if (x)]. *)
Definition ToBoolean (v : jsval) : bool :=
  match v with
  | JNull => false
  | JBool b => b
  | JNum (Fin z) => negb (z =? 0)
  | JNum NaN => false
  | JStr s => negb (String.eqb s "")
  end.

(** [x === null] *)
Definition is_null (v : jsval) : bool :=
  match v with JNull => true | _ => false end.

(** [x === "pending"] *)
Definition is_pending (v : jsval) : bool :=
  match v with JStr s => String.eqb s "pending" | _ => false end.

Definition number_ltb (a b : number) : bool :=
  match a, b with
  | Fin x, Fin y => x <? y
  | _, _ => false
  end.

Definition number_eqb (a b : number) : bool :=
  match a, b with
  | Fin x, Fin y => x =? y
  | _, _ => false
  end.

(** [a >= b]: two strings are compared as strings, code unit by code unit;
    any other pair is compared as numbers, and a comparison with NaN is
    false. *)
Definition js_ge (a b : jsval) : bool :=
  match a, b with
  | JStr s, JStr t => negb (String.ltb s t)
  | _, _ => match ToNumber a, ToNumber b with
            | Fin x, Fin y => y <=? x
            | _, _ => false
            end
  end.

(** [a > b] *)
Definition js_gt (a b : jsval) : bool :=
  match a, b with
  | JStr s, JStr t => String.ltb t s
  | _, _ => number_ltb (ToNumber b) (ToNumber a)
  end.

(** [a != b] for the operands the class compares: a string or a number
    against a number. *)
Definition js_neq (a b : jsval) : bool :=
  match a, b with
  | JStr s, JStr t => negb (String.eqb s t)
  | JNull, JNull => false
  | JNull, _ | _, JNull => true
  | _, _ => negb (number_eqb (ToNumber a) (ToNumber b))
  end.

(** [++x] and [--x], exact on the safe integers *)
Definition js_incr (v : jsval) : jsval :=
  JNum (match ToNumber v with Fin z => Fin (z + 1) | NaN => NaN end).

Definition js_decr (v : jsval) : jsval :=
  JNum (match ToNumber v with Fin z => Fin (z - 1) | NaN => NaN end).

(** ** The Redis store behind the client *)

Record entry := Entry { value : string; ttl : option positive }.

Inductive command :=
  | GET (key : string)
  | SET (key : string) (val : string) (ex : option positive)
  | DEL (key : string).

Inductive error := RedisError (message : string).

Inductive event :=
  | Sent (c : command) (failure : option error)
  | Emitted (name : string) (arg : string).

Record redis := Redis {
  db : gmap string entry;
  faults : list (option error);
  log : list event
}.

Definition exec (c : command) (d : gmap string entry) : gmap string entry :=
  match c with
  | GET _ => d
  | SET k v ex => <[k := Entry v ex]> d
  | DEL k => delete k d
  end.

Definition reply (c : command) (d : gmap string entry) : jsval :=
  match c with
  | GET k => match d !! k with Some e => JStr (value e) | None => JNull end
  | SET _ _ _ => JStr "OK"
  | DEL k => match d !! k with Some _ => JNum (Fin 1) | None => JNum (Fin 0) end
  end.

(** Passage of [dt] seconds: keys whose time-to-live has run out vanish. *)
Definition age (dt : positive) (e : entry) : option entry :=
  match ttl e with
  | None => Some e
  | Some t => if (t <=? dt)%positive then None
              else Some (Entry (value e) (Some (t - dt)%positive))
  end.

Definition advance (dt : positive) (r : redis) : redis :=
  Redis (omap (age dt) (db r)) (faults r) (log r).

(** ** Promises *)

Inductive reason :=
  | RString (s : string)
  | RError (e : error).

Inductive promise (A : Type) :=
  | Resolved (a : A)
  | Rejected (why : reason).
Arguments Resolved {A} a.
Arguments Rejected {A} why.

Definition async (A : Type) : Type := redis -> promise A * redis.

Definition resolve {A} (a : A) : async A := fun r => (Resolved a, r).
Definition reject {A} (why : reason) : async A := fun r => (Rejected why, r).

(** The rest of an async function once the promise it awaits has settled. *)
Definition resume {A B} (p : promise A) (k : A -> async B) : async B :=
  match p with
  | Resolved a => k a
  | Rejected why => reject why
  end.

Definition await {A B} (m : async A) (k : A -> async B) : async B :=
  fun r => let '(p, r1) := m r in resume p k r1.

Notation "'let!' x := m 'in' k" := (await m (fun x => k))
  (at level 10, x name, m at level 100, k at level 200).
Notation "'do!' m 'in' k" := (await m (fun _ => k))
  (at level 10, m at level 100, k at level 200).

(** [Promise.all([m1, m2])] where each function sends exactly one command:
    both commands are on the wire before any reply, and the first rejection
    in reply order settles the result. *)
Definition promise_all {A B} (m1 : async A) (m2 : async B) : async (A * B) :=
  fun r =>
    let '(p1, r1) := m1 r in
    let '(p2, r2) := m2 r1 in
    (match p1, p2 with
     | Rejected why, _ => Rejected why
     | _, Rejected why => Rejected why
     | Resolved a, Resolved b => Resolved (a, b)
     end, r2).

(** [Promise.all([f(), g()])] where [f] and [g] both start with one read
    [m1], [m2] and continue with [k1], [k2]: the two reads are sent before
    either continuation runs, the continuation of the first function runs
    ahead of the second, and a function abandoned by [Promise.all] still runs
    to its end.  The state returned is the one reached when both are done. *)
Definition promise_all_staged {A B C D}
    (m1 : async A) (k1 : A -> async C) (m2 : async B) (k2 : B -> async D)
    : async (C * D) :=
  fun r =>
    let '(p1, r1) := m1 r in
    let '(p2, r2) := m2 r1 in
    let '(c, r3) := resume p1 k1 r2 in
    let '(d, r4) := resume p2 k2 r3 in
    (match p1, p2, c, d with
     | Rejected why, _, _, _ => Rejected why
     | _, Rejected why, _, _ => Rejected why
     | _, _, Rejected why, _ => Rejected why
     | _, _, _, Rejected why => Rejected why
     | _, _, Resolved x, Resolved y => Resolved (x, y)
     end, r4).

(** One round trip through the client.  A scheduled fault is a command the
    server refuses: it fails without touching the keyspace. *)
Definition send (c : command) : async jsval := fun r =>
  match faults r with
  | Some e :: fs =>
      (Rejected (RError e), Redis (db r) fs (log r ++ [Sent c (Some e)]))
  | _ =>
      (Resolved (reply c (db r)),
       Redis (exec c (db r)) (tail (faults r)) (log r ++ [Sent c None]))
  end.

(** [emitter.emit(name, arg)] *)
Definition emit (name arg : string) : async unit := fun r =>
  (Resolved tt, Redis (db r) (faults r) (log r ++ [Emitted name arg])).

(** ** The class

    The two copies of the class are the same text function by function but
    for [setRedis] and the parameters of [initialize]: the copy under src/lib
    takes an [expiration] and passes ["EX", AsyncApiQueue.expiration] to
    [client.set], the older copy has neither.  The static fields [size] and
    [expiration] assigned by [initialize] are the fields of the record
    below; [source] tells the copy. *)

Inductive module := Lib | Part000.

Record AsyncApiQueue := Class {
  source : module;
  static_size : Z;
  static_expiration : positive
}.

Definition QUEUE_SIZE : string := "QUEUE_SIZE".
Definition QUEUE_COUNT : string := "QUEUE_COUNT".

(** The expiry arguments of [client.set]: ["EX", AsyncApiQueue.expiration] in
    src/lib, none in the older copy. *)
Definition expiry (q : AsyncApiQueue) : option positive :=
  match source q with
  | Lib => Some (static_expiration q)
  | Part000 => None
  end.

(** [if (b) { await m; }] *)
Definition when {A} (b : bool) (m : async A) : async unit :=
  if b then (do! m in resolve tt) else resolve tt.

(** [a == b] *)
Definition js_eq (a b : jsval) : bool := negb (js_neq a b).

Section Class.
Variable q : AsyncApiQueue.

Definition setRedis (key : string) (v : jsval) : async jsval :=
  send (SET key (ToString v) (expiry q)).

Definition getRedis (key : string) : async jsval := send (GET key).

Definition delRedis (key : string) : async jsval := send (DEL key).

Definition setSize (v : jsval) : async jsval := setRedis QUEUE_SIZE v.

Definition setCount (v : jsval) : async jsval := setRedis QUEUE_COUNT v.

Definition initializeRedis : async (jsval * jsval) :=
  promise_all (setCount (JNum (Fin 0))) (setSize (JNum (Fin (static_size q)))).

(** [getSize] and [getCount] after their read has been answered. *)
Definition getSize_rest (size : jsval) : async jsval :=
  do! when (is_null size) initializeRedis in
  resolve (if is_null size then JNum (Fin (static_size q)) else size).

Definition getCount_rest (size : jsval) : async jsval :=
  do! when (is_null size) initializeRedis in
  resolve (if is_null size then JNum (Fin 0) else size).

Definition getSize : async jsval :=
  let! size := getRedis QUEUE_SIZE in getSize_rest size.

Definition getCount : async jsval :=
  let! size := getRedis QUEUE_COUNT in getCount_rest size.

Definition up1Count : async jsval :=
  let! count := getCount in setCount (js_incr count).

Definition down1Count : async jsval :=
  let! count := getCount in
  setCount (if js_gt count (JNum (Fin 0)) then js_decr count else JNum (Fin 0)).

Definition isFullQueue : async bool :=
  let! cs := promise_all_staged (getRedis QUEUE_COUNT) getCount_rest
                                (getRedis QUEUE_SIZE) getSize_rest in
  resolve (js_ge (fst cs) (snd cs)).

Definition setRequest (key : string) : async jsval :=
  setRedis key (JStr "pending").

Definition addRequest : async jsval :=
  let! full := isFullQueue in
  if full then reject (RString "no-of-request-is-at-limit") else up1Count.

Definition checkDone (id : string) : async jsval :=
  let! result := getRedis id in
  resolve (if is_pending result then JBool false else result).

(** [removeRequest] after its read of the slot has been answered: the slot
    may be gone by the time the delete arrives. *)
Definition removeRequest_rest (id : string) (isDone : jsval) : async jsval :=
  if negb (is_null isDone) then
    let! result := delRedis id in
    do! when (js_eq result (JNum (Fin 1)) && negb (ToBoolean isDone)) down1Count in
    resolve result
  else resolve (JNum (Fin 0)).

Definition removeRequest (id : string) : async jsval :=
  let! isDone := checkDone id in removeRequest_rest id isDone.

Definition setDone (id response : string) : async jsval :=
  let! result := setRedis id (JStr response) in
  do! emit "setDone" id in
  do! down1Count in
  resolve result.

Definition initialize : async unit :=
  let! size := getSize in
  when (js_neq size (JNum (Fin (static_size q)))) initializeRedis.
End Class.

(** ** Views of the persisted state *)

(** A store whose server answers every command, and its fresh state. *)
Definition store (d : gmap string entry) : redis := Redis d [] [].

Definition lib (size : Z) (expiration : positive) : AsyncApiQueue :=
  Class Lib size expiration.

(** The older copy has no [expiration] field; the third field is unused. *)
Definition part000 (size : Z) : AsyncApiQueue := Class Part000 size 1.

Definition run {A} (m : async A) (r : redis) : redis := snd (m r).
Definition result {A} (m : async A) (r : redis) : promise A := fst (m r).

(** The in-flight count: the value [getCount] reads, as a number. *)
Definition inFlight (r : redis) : number :=
  match db r !! QUEUE_COUNT with
  | Some e => StringToNumber (value e)
  | None => Fin 0
  end.

Definition persisted (key : string) (r : redis) : option string :=
  value <$> db r !! key.

(** The keyspace after [initializeRedis]. *)
Definition reset (q : AsyncApiQueue) (d : gmap string entry) : gmap string entry :=
  <[QUEUE_SIZE := Entry (NumberToString (Fin (static_size q))) (expiry q)]>
    (<[QUEUE_COUNT := Entry "0" (expiry q)]> d).

(** The three observable states of a slot, and the one a key is in. *)
Inductive status :=
  | Absent
  | Pending
  | Done (payload : string).

Definition slot (id : string) (r : redis) : status :=
  match db r !! id with
  | None => Absent
  | Some e => if String.eqb (value e) "pending" then Pending else Done (value e)
  end.

(** What a caller of [checkDone] sees: [null], [false] or the payload. *)
Definition observe (v : jsval) : option status :=
  match v with
  | JNull => Some Absent
  | JBool false => Some Pending
  | JStr s => Some (Done s)
  | _ => None
  end.

(** ** Sequences of public operations *)

Inductive call :=
  | AddRequest
  | SetRequest (id : string)
  | CheckDone (id : string)
  | SetDone (id response : string)
  | RemoveRequest (id : string)
  | GetSize
  | GetCount.

Definition perform (q : AsyncApiQueue) (c : call) : async jsval :=
  match c with
  | AddRequest => addRequest q
  | SetRequest id => setRequest q id
  | CheckDone id => checkDone id
  | SetDone id response => setDone q id response
  | RemoveRequest id => removeRequest q id
  | GetSize => getSize q
  | GetCount => getCount q
  end.

Definition request_id (c : call) : option string :=
  match c with
  | SetRequest id | CheckDone id | SetDone id _ | RemoveRequest id => Some id
  | AddRequest | GetSize | GetCount => None
  end.

Fixpoint perform_all (q : AsyncApiQueue) (cs : list call) (r : redis)
    : list (promise jsval) * redis :=
  match cs with
  | [] => ([], r)
  | c :: cs' =>
      let '(p, r1) := perform q c r in
      let '(ps, r2) := perform_all q cs' r1 in
      (p :: ps, r2)
  end.

(** [n] reservations in a row. *)
Definition reserve (q : AsyncApiQueue) (n : nat) (r : redis) : redis :=
  Nat.iter n (run (addRequest q)) r.

(** States reached from [initialize] on an empty keyspace, under any schedule
    of store failures, by public operations whose request ids satisfy
    [allowed], with processes starting again and time passing in between. *)
Inductive reachable (q : AsyncApiQueue) (allowed : string -> Prop) : redis -> Prop :=
  | reach_initialize fs :
      reachable q allowed (run (initialize q) (Redis ∅ fs []))
  | reach_restart r :
      reachable q allowed r ->
      reachable q allowed (run (initialize q) r)
  | reach_call r c :
      reachable q allowed r ->
      (forall id, request_id c = Some id -> allowed id) ->
      reachable q allowed (run (perform q c) r)
  | reach_advance r dt :
      reachable q allowed r ->
      reachable q allowed (advance dt r).

(** ** Errors seen by an operation *)

Definition failure_of (ev : event) : option error :=
  match ev with
  | Sent _ (Some e) => Some e
  | _ => None
  end.

Definition failures (evs : list event) : list error := omap failure_of evs.

(** How a promise may settle given the commands sent on its behalf: it
    resolves, or rejects with one of the strings in [S], only if no command
    failed, and otherwise rejects with the error of the first failed
    command. *)
Definition verdict {A} (S : string -> Prop) (p : promise A) (evs : list event) : Prop :=
  match p with
  | Resolved _ => failures evs = []
  | Rejected (RString s) => S s /\ failures evs = []
  | Rejected (RError e) => head (failures evs) = Some e
  end.

Definition QueueFull : reason := RString "no-of-request-is-at-limit".
Definition StoreUnavailable (e : error) : reason := RError e.

(** The strings an operation may reject with. *)
Definition limit_of (c : call) (s : string) : Prop :=
  match c with
  | AddRequest => s = "no-of-request-is-at-limit"
  | _ => False
  end.

(** ** Comparing the two copies: the store without its expiry *)

Definition forget_entry (e : entry) : entry := Entry (value e) None.

Definition forget_command (c : command) : command :=
  match c with
  | SET k v _ => SET k v None
  | _ => c
  end.

Definition forget_event (ev : event) : event :=
  match ev with
  | Sent c f => Sent (forget_command c) f
  | Emitted n a => Emitted n a
  end.

Definition forget (r : redis) : redis :=
  Redis (forget_entry <$> db r) (faults r) (forget_event <$> log r).

(** ** The claims as predicates *)

(** A completed request: reserve, mark pending, mark done, then look. *)
Definition completes (q : AsyncApiQueue) (id payload : string) (r : redis) : Prop :=
  let r1 := run (addRequest q) r in
  let r3 := run (setDone q id payload) (run (setRequest q id) r1) in
  result (checkDone id) r3 = Resolved (JStr payload) /\
  exists n, inFlight r1 = Fin n /\ inFlight r3 = Fin (n - 1).

(** [removeRequest] by the state of the slot it finds; a decrement is
    floored at 0. *)
Definition removes (q : AsyncApiQueue) (id : string) (r : redis) : Prop :=
  let p := result (removeRequest q id) r in
  let r' := run (removeRequest q id) r in
  match slot id r with
  | Absent =>
      p = Resolved (JNum (Fin 0)) /\ db r' = db r /\
      log r' = (log r ++ [Sent (GET id) None])%list
  | Done _ =>
      p = Resolved (JNum (Fin 1)) /\ db r' = delete id (db r) /\
      inFlight r' = inFlight r
  | Pending =>
      p = Resolved (JNum (Fin 1)) /\ slot id r' = Absent /\
      exists n, inFlight r = Fin n /\ inFlight r' = Fin (Z.max 0 (n - 1))
  end.

(** The counter invariant. *)
Definition count_ok (r : redis) : Prop :=
  exists n, inFlight r = Fin n /\ 0 <= n.

(** A slot that carries the configured time-to-live and is gone once that
    time has passed. *)
Definition self_destructs (q : AsyncApiQueue) (id : string) (r : redis) : Prop :=
  (exists e, db r !! id = Some e /\ ttl e = Some (static_expiration q)) /\
  slot id (advance (static_expiration q) r) = Absent.

(** The two copies agree on every result and on the whole persisted state. *)
Definition same_behaviour (size : Z) (expiration : positive) (cs : list call)
    (r : redis) : Prop :=
  perform_all (lib size expiration) cs (run (initialize (lib size expiration)) r)
  = perform_all (part000 size) cs (run (initialize (part000 size)) r).

(** Every entry of the keyspace expires within [e] seconds. *)
Definition expires_within (e : positive) (d : gmap string entry) : Prop :=
  forall k en, d !! k = Some en -> exists t, ttl en = Some t /\ (t <= e)%positive.

(** [setDone], once and twice, on a slot in any state. *)
Definition marks_done (q : AsyncApiQueue) (id payload : string) (r : redis) : Prop :=
  let r1 := run (setDone q id payload) r in
  let r2 := run (setDone q id payload) r1 in
  result (setDone q id payload) r = Resolved (JStr "OK") /\
  db r1 !! id = Some (Entry payload (expiry q)) /\
  exists n, inFlight r = Fin n /\
            inFlight r1 = Fin (Z.max 0 (n - 1)) /\
            inFlight r2 = Fin (Z.max 0 (n - 2)).

(** ** Auxiliary views used by the proofs *)

(** Values that read as a natural number, and keyspaces whose counter does. *)
Definition natural (v : jsval) : Prop := exists n, ToNumber v = Fin n /\ 0 <= n.

Definition counter_ok (d : gmap string entry) : Prop := count_ok (store d).

(** What [getCount] and [getSize] resolve to, and the keyspace they leave. *)
Definition getCount_value (d : gmap string entry) : jsval :=
  match d !! QUEUE_COUNT with
  | Some e => JStr (value e)
  | None => JNum (Fin 0)
  end.

Definition getSize_value (q : AsyncApiQueue) (d : gmap string entry) : jsval :=
  match d !! QUEUE_SIZE with
  | Some e => JStr (value e)
  | None => JNum (Fin (static_size q))
  end.

Definition after_getCount (q : AsyncApiQueue) (d : gmap string entry) : gmap string entry :=
  match d !! QUEUE_COUNT with
  | Some _ => d
  | None => reset q d
  end.

Definition after_getSize (q : AsyncApiQueue) (d : gmap string entry) : gmap string entry :=
  match d !! QUEUE_SIZE with
  | Some _ => d
  | None => reset q d
  end.

Definition after_isFullQueue (q : AsyncApiQueue) (d : gmap string entry) : gmap string entry :=
  match d !! QUEUE_COUNT, d !! QUEUE_SIZE with
  | Some _, Some _ => d
  | _, _ => reset q d
  end.

Definition with_count (q : AsyncApiQueue) (n : Z) (d : gmap string entry) : gmap string entry :=
  <[QUEUE_COUNT := Entry (NumberToString (Fin n)) (expiry q)]> d.

(** Functions that never reject with a string of their own. *)
Definition never (s : string) : Prop := False.

(** The postcondition that holds of every value. *)
Definition anything {A} (a : A) : Prop := True.

(** ** Specifications of async functions *)

(** [m] keeps the keyspace within [J] however it settles, and resolves
    only to values in [F]. *)
Definition keeps {A} (J : gmap string entry -> Prop) (F : A -> Prop)
    (m : async A) : Prop :=
  forall r, J (db r) ->
    J (db (snd (m r))) /\ forall a, fst (m r) = Resolved a -> F a.

(** [m] appends the commands it sends to the log and settles in line with
    their fate; a store without faults stays without faults. *)
Definition traced {A} (S : string -> Prop) (m : async A) : Prop :=
  forall r, exists evs,
    log (snd (m r)) = (log r ++ evs)%list /\
    verdict S (fst (m r)) evs /\
    (faults r = [] -> faults (snd (m r)) = [] /\ failures evs = []).

(** [m2] does on the store without expiry what [m1] does on the store. *)
Definition simulates {A} (m1 m2 : async A) : Prop :=
  forall r, m2 (forget r) = (fst (m1 r), forget (snd (m1 r))).

(** [m] rejects with the error of its first command when that command
    fails. *)
Definition fails_first {A} (m : async A) : Prop :=
  forall d e fs l, fst (m (Redis d (Some e :: fs) l)) = Rejected (RError e).

(** ** Views used by the further properties *)

(** The events emitted on the local emitter, oldest first. *)
Definition emission (ev : event) : option (string * string) :=
  match ev with
  | Emitted name arg => Some (name, arg)
  | Sent _ _ => None
  end.

Definition emitted (r : redis) : list (string * string) := omap emission (log r).

(** [m] emits nothing. *)
Definition silent {A} (m : async A) : Prop :=
  forall r, emitted (snd (m r)) = emitted r.

(** A request id that is neither of the two counter keys. *)
Definition plain (id : string) : Prop := id <> QUEUE_COUNT /\ id <> QUEUE_SIZE.

(** Both counter keys are present, the size with entry [es]. *)
Definition configured (es : entry) (d : gmap string entry) : Prop :=
  d !! QUEUE_SIZE = Some es /\ is_Some (d !! QUEUE_COUNT).

(** No key of the keyspace expires. *)
Definition persistent (d : gmap string entry) : Prop :=
  forall k en, d !! k = Some en -> ttl en = None.

(** Replies that are not [null]. *)
Definition not_null (v : jsval) : Prop := is_null v = false.

(** The life of one instance on a store that answers: after [initialize] on
    an empty store, public operations, waiting, and starting again. *)
Inductive step :=
  | Call (c : call)
  | Wait (dt : positive)
  | Restart.

Definition take (q : AsyncApiQueue) (r : redis) (s : step) : redis :=
  match s with
  | Call c => run (perform q c) r
  | Wait dt => advance dt r
  | Restart => run (initialize q) r
  end.

Definition session (q : AsyncApiQueue) (steps : list step) : redis :=
  fold_left (take q) steps (run (initialize q) (store ∅)).

Definition plain_step (s : step) : Prop :=
  match s with
  | Call c => forall id, request_id c = Some id -> plain id
  | _ => True
  end.

(** The counter keys hold, when present, a count between 0 and the
    configured size and the configured size itself, as [setCount] and
    [setSize] spell them. *)
Definition capped (q : AsyncApiQueue) (d : gmap string entry) : Prop :=
  (d !! QUEUE_COUNT = None \/
   exists n ex, 0 <= n <= static_size q /\
                d !! QUEUE_COUNT = Some (Entry (NumberToString (Fin n)) ex)) /\
  (d !! QUEUE_SIZE = None \/
   exists ex, d !! QUEUE_SIZE = Some (Entry (NumberToString (Fin (static_size q))) ex)).

(** The commands that cannot change the keyspace. *)
Definition is_read (ev : event) : Prop :=
  match ev with
  | Sent (GET _) _ => True
  | _ => False
  end.

(** * Properties *)

(** ** Numbers and their decimal rendering *)

Lemma to_int_not_nil z :
  Z.to_int z <> Decimal.Pos Decimal.Nil /\ Z.to_int z <> Decimal.Neg Decimal.Nil.
Proof.
  destruct z as [|p|p]; simpl; split; try discriminate;
    intros [= H]; now apply DecimalPos.Unsigned.to_uint_nonnil in H.
Qed.

Lemma StringToNumber_NumberToString z :
  StringToNumber (NumberToString (Fin z)) = Fin z.
Proof.
  unfold StringToNumber, NumberToString.
  destruct (to_int_not_nil z) as [Hp Hn].
  pose proof (NilZero.isi (Z.to_int z) Hp Hn) as Hisi.
  destruct (NilZero.string_of_int (Z.to_int z)) eqn:E.
  - discriminate Hisi.
  - rewrite Hisi. now rewrite DecimalZ.of_to.
Qed.

Lemma count_key_neq_size_key : QUEUE_COUNT <> QUEUE_SIZE.
Proof. discriminate. Qed.

Lemma size_key_neq_count_key : QUEUE_SIZE <> QUEUE_COUNT.
Proof. discriminate. Qed.

Create HintDb queue.
#[global] Hint Resolve count_key_neq_size_key size_key_neq_count_key : queue.

Global Opaque QUEUE_COUNT QUEUE_SIZE.
Arguments NumberToString : simpl never.
Arguments StringToNumber : simpl never.

Ltac run_async :=
  cbv [initialize setDone removeRequest removeRequest_rest checkDone addRequest setRequest
       isFullQueue down1Count up1Count getCount getSize getCount_rest
       getSize_rest initializeRedis setCount setSize delRedis getRedis
       setRedis when promise_all promise_all_staged await resume resolve
       reject send emit run result faults db log tail exec reply fst snd
       is_null is_pending store perform].

(** ** Invariants of the keyspace *)

Section Keeps.
Context (J : gmap string entry -> Prop).

Lemma keeps_resolve {A} (F : A -> Prop) a : F a -> keeps J F (resolve a).
Proof. intros Ha r Hr. split; [exact Hr|]. now intros ? [= <-]. Qed.

Lemma keeps_reject {A} (F : A -> Prop) why : keeps J F (reject why).
Proof. intros r Hr. split; [exact Hr|]. intros ? [=]. Qed.

Lemma keeps_weaken {A} (F G : A -> Prop) m :
  keeps J F m -> (forall a, F a -> G a) -> keeps J G m.
Proof. intros Hm HFG r Hr. destruct (Hm r Hr) as [? H]. split; auto. Qed.

Lemma keeps_await {A B} (F : A -> Prop) (G : B -> Prop) m k :
  keeps J F m -> (forall a, F a -> keeps J G (k a)) -> keeps J G (await m k).
Proof.
  intros Hm Hk r Hr. unfold await.
  destruct (Hm r Hr) as [HJ HF]. destruct (m r) as [[a|why] r1]; simpl in *.
  - apply (Hk a); auto.
  - split; [exact HJ|]. intros ? [=].
Qed.

Lemma keeps_when {A} (F : A -> Prop) b m :
  keeps J F m -> keeps J (fun _ => True) (when b m).
Proof.
  intros Hm. unfold when. destruct b.
  - eapply keeps_await; [exact Hm|]. intros. now apply keeps_resolve.
  - now apply keeps_resolve.
Qed.

Lemma keeps_promise_all {A B} (F : A -> Prop) (G : B -> Prop) m1 m2 :
  keeps J F m1 -> keeps J G m2 ->
  keeps J (fun ab => F (fst ab) /\ G (snd ab)) (promise_all m1 m2).
Proof.
  intros H1 H2 r Hr. unfold promise_all.
  destruct (H1 r Hr) as [HJ1 HF]. destruct (m1 r) as [p1 r1]; simpl in *.
  destruct (H2 r1 HJ1) as [HJ2 HG]. destruct (m2 r1) as [p2 r2]; simpl in *.
  split; [exact HJ2|].
  intros [a b]. destruct p1, p2; intros [=]; subst. simpl. auto.
Qed.

Lemma keeps_resume {A B} (F : A -> Prop) (G : B -> Prop) p k :
  (forall a, p = Resolved a -> F a) ->
  (forall a, F a -> keeps J G (k a)) -> keeps J G (resume p k).
Proof.
  intros Hp Hk. destruct p as [a|why]; simpl.
  - apply Hk, Hp. reflexivity.
  - apply keeps_reject.
Qed.

Lemma keeps_promise_all_staged {A B C D}
    (F1 : A -> Prop) (F2 : B -> Prop) (G1 : C -> Prop) (G2 : D -> Prop)
    m1 k1 m2 k2 :
  keeps J F1 m1 -> keeps J F2 m2 ->
  (forall a, F1 a -> keeps J G1 (k1 a)) ->
  (forall b, F2 b -> keeps J G2 (k2 b)) ->
  keeps J (fun cd => G1 (fst cd) /\ G2 (snd cd)) (promise_all_staged m1 k1 m2 k2).
Proof.
  intros H1 H2 Hk1 Hk2 r Hr. unfold promise_all_staged.
  destruct (H1 r Hr) as [HJ1 HF1]. destruct (m1 r) as [p1 r1]; simpl in *.
  destruct (H2 r1 HJ1) as [HJ2 HF2]. destruct (m2 r1) as [p2 r2]; simpl in *.
  destruct (keeps_resume F1 G1 p1 k1 HF1 Hk1 r2 HJ2) as [HJ3 HG1].
  destruct (resume p1 k1 r2) as [c r3]; simpl in *.
  destruct (keeps_resume F2 G2 p2 k2 HF2 Hk2 r3 HJ3) as [HJ4 HG2].
  destruct (resume p2 k2 r3) as [d r4]; simpl in *.
  split; [exact HJ4|].
  intros [x y]. destruct p1, p2, c, d; intros [=]; subst. simpl. auto.
Qed.

Lemma keeps_send (F : jsval -> Prop) c :
  (forall d, J d -> J (exec c d)) ->
  (forall d, J d -> F (reply c d)) ->
  keeps J F (send c).
Proof.
  intros He Hr r HJ. unfold send.
  destruct (faults r) as [|[e|] fs]; simpl; split; auto;
    try (intros ? [= <-]; auto); intros ? [=].
Qed.

Lemma keeps_emit name arg : keeps J (fun _ => True) (emit name arg).
Proof. intros r Hr. simpl. auto. Qed.
End Keeps.

(** ** The counter never goes below zero *)

Lemma count_ok_db r : count_ok r <-> counter_ok (db r).
Proof. reflexivity. Qed.

Lemma counter_ok_insert_other d key e :
  key <> QUEUE_COUNT -> counter_ok d -> counter_ok (<[key := e]> d).
Proof.
  intros Hk. unfold counter_ok, count_ok, inFlight. simpl.
  now rewrite lookup_insert_ne.
Qed.

Lemma counter_ok_insert_count d n ex :
  0 <= n -> counter_ok (<[QUEUE_COUNT := Entry (NumberToString (Fin n)) ex]> d).
Proof.
  intros Hn. exists n. unfold inFlight. simpl. rewrite lookup_insert_eq. simpl.
  split; [apply StringToNumber_NumberToString | exact Hn].
Qed.

Lemma counter_ok_delete d key : counter_ok d -> counter_ok (delete key d).
Proof.
  unfold counter_ok, count_ok, inFlight. simpl. intros H.
  destruct (decide (key = QUEUE_COUNT)) as [->|Hk].
  - rewrite lookup_delete_eq. exists 0. split; [reflexivity | lia].
  - now rewrite lookup_delete_ne.
Qed.

Lemma counter_ok_age d dt : counter_ok d -> counter_ok (omap (age dt) d).
Proof.
  unfold counter_ok, count_ok, inFlight. simpl. intros H.
  rewrite lookup_omap. destruct (d !! QUEUE_COUNT) as [e|]; simpl; [|exact H].
  unfold age. destruct (ttl e) as [t|]; simpl; [|exact H].
  destruct (t <=? dt)%positive; simpl; [|exact H].
  exists 0. split; [reflexivity | lia].
Qed.

Section CounterInvariant.
Variable q : AsyncApiQueue.

Lemma getRedis_count_natural : keeps counter_ok natural (getRedis QUEUE_COUNT).
Proof.
  apply keeps_send; simpl; [auto|].
  intros d (n & Hn & H0). unfold inFlight in Hn. simpl in Hn.
  destruct (d !! QUEUE_COUNT) as [e|]; exists n; auto.
Qed.

Lemma getRedis_keeps key : keeps counter_ok (fun _ => True) (getRedis key).
Proof. apply keeps_send; simpl; auto. Qed.

Lemma delRedis_keeps key : keeps counter_ok (fun _ => True) (delRedis key).
Proof. apply keeps_send; simpl; auto using counter_ok_delete. Qed.

Lemma setRedis_keeps key v :
  key <> QUEUE_COUNT -> keeps counter_ok (fun _ => True) (setRedis q key v).
Proof. intros Hk. apply keeps_send; simpl; auto using counter_ok_insert_other. Qed.

Lemma setCount_keeps n :
  0 <= n -> keeps counter_ok (fun _ => True) (setCount q (JNum (Fin n))).
Proof. intros Hn. apply keeps_send; simpl; auto using counter_ok_insert_count. Qed.

Lemma initializeRedis_keeps : keeps counter_ok (fun _ => True) (initializeRedis q).
Proof.
  eapply keeps_weaken.
  - apply keeps_promise_all; [apply setCount_keeps; lia|].
    apply setRedis_keeps; auto with queue.
  - auto.
Qed.

Lemma getCount_rest_keeps v : natural v -> keeps counter_ok natural (getCount_rest q v).
Proof.
  intros Hv. unfold getCount_rest.
  eapply keeps_await; [eapply keeps_when, initializeRedis_keeps|].
  intros _ _. apply keeps_resolve.
  destruct (is_null v); [|exact Hv]. exists 0. split; [reflexivity | lia].
Qed.

Lemma getSize_rest_keeps v : keeps counter_ok (fun _ => True) (getSize_rest q v).
Proof.
  unfold getSize_rest.
  eapply keeps_await; [eapply keeps_when, initializeRedis_keeps|].
  intros _ _. now apply keeps_resolve.
Qed.

Lemma getCount_keeps : keeps counter_ok natural (getCount q).
Proof.
  eapply keeps_await; [apply getRedis_count_natural|].
  apply getCount_rest_keeps.
Qed.

Lemma getSize_keeps : keeps counter_ok (fun _ => True) (getSize q).
Proof.
  eapply keeps_await; [apply getRedis_keeps|]. intros. apply getSize_rest_keeps.
Qed.

Lemma js_incr_natural v :
  natural v -> exists n, js_incr v = JNum (Fin n) /\ 0 <= n.
Proof.
  intros (n & Hn & H0). exists (n + 1). unfold js_incr. rewrite Hn.
  split; [reflexivity | lia].
Qed.

Lemma js_decrement_natural v :
  natural v ->
  exists n, (if js_gt v (JNum (Fin 0)) then js_decr v else JNum (Fin 0)) = JNum (Fin n)
            /\ 0 <= n.
Proof.
  intros (n & Hn & H0).
  assert (Hgt : js_gt v (JNum (Fin 0)) = (0 <? n)).
  { unfold js_gt. destruct v as [|b|m|s]; simpl in Hn |- *.
    - now injection Hn as <-.
    - destruct b; now injection Hn as <-.
    - now subst m.
    - now rewrite Hn. }
  rewrite Hgt. destruct (Z.ltb_spec 0 n).
  - exists (n - 1). unfold js_decr. rewrite Hn. split; [reflexivity | lia].
  - exists 0. split; [reflexivity | lia].
Qed.

Lemma up1Count_keeps : keeps counter_ok (fun _ => True) (up1Count q).
Proof.
  eapply keeps_await; [apply getCount_keeps|].
  intros v Hv. destruct (js_incr_natural v Hv) as (n & -> & Hn).
  now apply setCount_keeps.
Qed.

Lemma down1Count_keeps : keeps counter_ok (fun _ => True) (down1Count q).
Proof.
  eapply keeps_await; [apply getCount_keeps|].
  intros v Hv. destruct (js_decrement_natural v Hv) as (n & -> & Hn).
  now apply setCount_keeps.
Qed.

Lemma isFullQueue_keeps : keeps counter_ok (fun _ => True) (isFullQueue q).
Proof.
  eapply keeps_await.
  - apply keeps_promise_all_staged
      with (F1 := natural) (F2 := fun _ => True)
           (G1 := natural) (G2 := fun _ => True).
    + apply getRedis_count_natural.
    + apply getRedis_keeps.
    + apply getCount_rest_keeps.
    + intros. apply getSize_rest_keeps.
  - intros. now apply keeps_resolve.
Qed.

Lemma addRequest_keeps : keeps counter_ok (fun _ => True) (addRequest q).
Proof.
  eapply keeps_await; [apply isFullQueue_keeps|].
  intros [] _; [apply keeps_reject | apply up1Count_keeps].
Qed.

Lemma checkDone_keeps id : keeps counter_ok (fun _ => True) (checkDone id).
Proof.
  eapply keeps_await; [apply getRedis_keeps|]. intros. now apply keeps_resolve.
Qed.

Lemma removeRequest_keeps id : keeps counter_ok (fun _ => True) (removeRequest q id).
Proof.
  eapply keeps_await; [apply checkDone_keeps|].
  intros isDone _. unfold removeRequest_rest.
  destruct (negb (is_null isDone)); [|now apply keeps_resolve].
  eapply keeps_await; [apply delRedis_keeps|]. intros res _.
  eapply keeps_await; [eapply keeps_when, down1Count_keeps|].
  intros. now apply keeps_resolve.
Qed.

Lemma setDone_keeps id response :
  id <> QUEUE_COUNT -> keeps counter_ok (fun _ => True) (setDone q id response).
Proof.
  intros Hid. eapply keeps_await; [now apply setRedis_keeps|]. intros res _.
  eapply keeps_await; [apply keeps_emit|]. intros _ _.
  eapply keeps_await; [apply down1Count_keeps|]. intros. now apply keeps_resolve.
Qed.

Lemma initialize_keeps : keeps counter_ok (fun _ => True) (initialize q).
Proof.
  eapply keeps_await; [apply getSize_keeps|]. intros.
  eapply keeps_when, initializeRedis_keeps.
Qed.

Lemma perform_keeps c :
  (forall id, request_id c = Some id -> id <> QUEUE_COUNT) ->
  keeps counter_ok (fun _ => True) (perform q c).
Proof.
  destruct c; simpl; intros Hid.
  - apply addRequest_keeps.
  - apply setRedis_keeps. now apply Hid.
  - apply checkDone_keeps.
  - apply setDone_keeps. now apply Hid.
  - apply removeRequest_keeps.
  - apply getSize_keeps.
  - eapply keeps_weaken; [apply getCount_keeps | auto].
Qed.

Lemma reachable_count_ok r :
  reachable q (fun id => id <> QUEUE_COUNT) r -> count_ok r.
Proof.
  induction 1 as [fs | r Hr IH | r c Hr IH Hid | r dt Hr IH].
  - apply count_ok_db. apply initialize_keeps. simpl.
    exists 0. split; [reflexivity | lia].
  - apply count_ok_db. apply initialize_keeps. now apply count_ok_db.
  - apply count_ok_db. apply perform_keeps; [exact Hid|]. now apply count_ok_db.
  - apply count_ok_db. simpl. apply counter_ok_age. now apply count_ok_db.
Qed.
End CounterInvariant.

(** ** Runs against a store that answers every command *)

Lemma await_eq {A B} (m : async A) (k : A -> async B) r p r1 :
  m r = (p, r1) -> await m k r = resume p k r1.
Proof. intros H. unfold await. now rewrite H. Qed.

Ltac lookups :=
  repeat (rewrite lookup_insert_eq
          || rewrite lookup_delete_eq
          || (rewrite lookup_insert_ne by (congruence || auto with queue))
          || (rewrite lookup_delete_ne by (congruence || auto with queue))).

Lemma reset_reset q d : reset q (reset q d) = reset q d.
Proof.
  unfold reset. apply map_eq. intros k.
  destruct (decide (k = QUEUE_SIZE)) as [->|Hs]; [now lookups|].
  destruct (decide (k = QUEUE_COUNT)) as [->|Hc]; now lookups.
Qed.

Lemma reset_count q d : reset q d !! QUEUE_COUNT = Some (Entry "0" (expiry q)).
Proof.
  unfold reset. rewrite lookup_insert_ne by auto with queue.
  apply lookup_insert_eq.
Qed.

Lemma reset_size q d :
  reset q d !! QUEUE_SIZE
  = Some (Entry (NumberToString (Fin (static_size q))) (expiry q)).
Proof. unfold reset. apply lookup_insert_eq. Qed.

Lemma reset_other q d key :
  key <> QUEUE_COUNT -> key <> QUEUE_SIZE -> reset q d !! key = d !! key.
Proof. intros Hc Hs. unfold reset. now rewrite !lookup_insert_ne by congruence. Qed.

Section Healthy.
Variable q : AsyncApiQueue.
Variable d : gmap string entry.
Variable l : list event.

Lemma setRedis_healthy key v :
  setRedis q key v (Redis d [] l)
  = (Resolved (JStr "OK"),
     Redis (<[key := Entry (ToString v) (expiry q)]> d) []
           (l ++ [Sent (SET key (ToString v) (expiry q)) None])).
Proof. reflexivity. Qed.

Lemma getRedis_healthy key :
  getRedis key (Redis d [] l)
  = (Resolved (match d !! key with Some e => JStr (value e) | None => JNull end),
     Redis d [] (l ++ [Sent (GET key) None])).
Proof. reflexivity. Qed.

Lemma delRedis_healthy key :
  delRedis key (Redis d [] l)
  = (Resolved (match d !! key with Some _ => JNum (Fin 1) | None => JNum (Fin 0) end),
     Redis (delete key d) [] (l ++ [Sent (DEL key) None])).
Proof. reflexivity. Qed.

Lemma initializeRedis_healthy :
  initializeRedis q (Redis d [] l)
  = (Resolved (JStr "OK", JStr "OK"),
     Redis (reset q d) []
       ((l ++ [Sent (SET QUEUE_COUNT "0" (expiry q)) None])
          ++ [Sent (SET QUEUE_SIZE (NumberToString (Fin (static_size q))) (expiry q)) None])).
Proof. reflexivity. Qed.

Lemma getCount_healthy :
  exists l', getCount q (Redis d [] l)
             = (Resolved (getCount_value d), Redis (after_getCount q d) [] l').
Proof.
  unfold getCount_value, after_getCount. run_async.
  destruct (d !! QUEUE_COUNT); simpl; eauto.
Qed.

Lemma getSize_healthy :
  exists l', getSize q (Redis d [] l)
             = (Resolved (getSize_value q d), Redis (after_getSize q d) [] l').
Proof.
  unfold getSize_value, after_getSize. run_async.
  destruct (d !! QUEUE_SIZE); simpl; eauto.
Qed.

Lemma isFullQueue_healthy :
  exists l', isFullQueue q (Redis d [] l)
             = (Resolved (js_ge (getCount_value d) (getSize_value q d)),
                Redis (after_isFullQueue q d) [] l').
Proof.
  unfold getCount_value, getSize_value, after_isFullQueue. run_async.
  destruct (d !! QUEUE_COUNT), (d !! QUEUE_SIZE); simpl; eauto.
  rewrite <- (reset_reset q d). eexists. reflexivity.
Qed.
End Healthy.

Lemma inFlight_value d f l : inFlight (Redis d f l) = ToNumber (getCount_value d).
Proof.
  unfold inFlight, getCount_value. simpl. now destruct (d !! QUEUE_COUNT).
Qed.

Lemma js_gt_zero v n : ToNumber v = Fin n -> js_gt v (JNum (Fin 0)) = (0 <? n).
Proof.
  intros Hn. unfold js_gt. destruct v as [|b|m|s]; simpl in Hn |- *.
  - now injection Hn as <-.
  - destruct b; now injection Hn as <-.
  - now subst m.
  - now rewrite Hn.
Qed.

Lemma js_decrement v n :
  ToNumber v = Fin n ->
  (if js_gt v (JNum (Fin 0)) then js_decr v else JNum (Fin 0))
  = JNum (Fin (Z.max 0 (n - 1))).
Proof.
  intros Hn. rewrite (js_gt_zero v n Hn). unfold js_decr. rewrite Hn.
  destruct (Z.ltb_spec 0 n); do 2 f_equal; lia.
Qed.

Lemma after_getCount_count q d : is_Some (after_getCount q d !! QUEUE_COUNT).
Proof.
  unfold after_getCount. destruct (d !! QUEUE_COUNT) eqn:H; [now rewrite H|].
  rewrite reset_count. eauto.
Qed.

Lemma after_isFullQueue_count q d : is_Some (after_isFullQueue q d !! QUEUE_COUNT).
Proof.
  unfold after_isFullQueue.
  destruct (d !! QUEUE_COUNT) eqn:H; [destruct (d !! QUEUE_SIZE)|];
    rewrite ?H, ?reset_count; eauto.
Qed.

Lemma after_getCount_present q d :
  is_Some (d !! QUEUE_COUNT) -> after_getCount q d = d.
Proof. intros [e He]. unfold after_getCount. now rewrite He. Qed.

Lemma getCount_value_settled q d :
  ToNumber (getCount_value (after_getCount q d)) = ToNumber (getCount_value d).
Proof.
  unfold after_getCount, getCount_value.
  destruct (d !! QUEUE_COUNT) eqn:H; [now rewrite H|]. now rewrite reset_count.
Qed.

Lemma with_count_value q n d :
  ToNumber (getCount_value (with_count q n d)) = Fin n.
Proof.
  unfold getCount_value, with_count. rewrite lookup_insert_eq. simpl.
  apply StringToNumber_NumberToString.
Qed.

Section HealthyCounter.
Variable q : AsyncApiQueue.
Variable d : gmap string entry.
Variable l : list event.

Lemma up1Count_healthy n :
  ToNumber (getCount_value d) = Fin n ->
  exists l', up1Count q (Redis d [] l)
             = (Resolved (JStr "OK"),
                Redis (with_count q (n + 1) (after_getCount q d)) [] l').
Proof.
  intros Hn. destruct (getCount_healthy q d l) as [l1 H1].
  unfold up1Count. rewrite (await_eq _ _ _ _ _ H1). simpl.
  unfold setCount. rewrite setRedis_healthy. unfold js_incr. rewrite Hn.
  eexists. reflexivity.
Qed.

Lemma down1Count_healthy n :
  ToNumber (getCount_value d) = Fin n ->
  exists l', down1Count q (Redis d [] l)
             = (Resolved (JStr "OK"),
                Redis (with_count q (Z.max 0 (n - 1)) (after_getCount q d)) [] l').
Proof.
  intros Hn. destruct (getCount_healthy q d l) as [l1 H1].
  unfold down1Count. rewrite (await_eq _ _ _ _ _ H1). simpl.
  rewrite (js_decrement _ n Hn). unfold setCount. rewrite setRedis_healthy.
  eexists. reflexivity.
Qed.

End HealthyCounter.

Section HealthyOperations.
Variable q : AsyncApiQueue.
Variable d : gmap string entry.
Variable l : list event.

Lemma addRequest_full :
  js_ge (getCount_value d) (getSize_value q d) = true ->
  exists l', addRequest q (Redis d [] l)
             = (Rejected QueueFull, Redis (after_isFullQueue q d) [] l').
Proof.
  intros Hfull. destruct (isFullQueue_healthy q d l) as [l1 H1].
  unfold addRequest. rewrite (await_eq _ _ _ _ _ H1). simpl. rewrite Hfull.
  eexists. reflexivity.
Qed.

Lemma addRequest_accepted n :
  js_ge (getCount_value d) (getSize_value q d) = false ->
  ToNumber (getCount_value (after_isFullQueue q d)) = Fin n ->
  exists l', addRequest q (Redis d [] l)
             = (Resolved (JStr "OK"),
                Redis (with_count q (n + 1) (after_isFullQueue q d)) [] l').
Proof.
  intros Hfull Hn. destruct (isFullQueue_healthy q d l) as [l1 H1].
  unfold addRequest. rewrite (await_eq _ _ _ _ _ H1). simpl. rewrite Hfull.
  destruct (up1Count_healthy q _ l1 n Hn) as [l2 H2]. rewrite H2.
  rewrite after_getCount_present by apply after_isFullQueue_count.
  eexists. reflexivity.
Qed.

Lemma checkDone_healthy id :
  checkDone id (Redis d [] l)
  = (Resolved (match d !! id with
               | None => JNull
               | Some e => if String.eqb (value e) "pending" then JBool false
                           else JStr (value e)
               end),
     Redis d [] (l ++ [Sent (GET id) None])).
Proof.
  run_async. destruct (d !! id) as [e|]; [|reflexivity].
  now destruct (String.eqb (value e) "pending").
Qed.

Lemma setDone_healthy id payload n :
  ToNumber (getCount_value (<[id := Entry payload (expiry q)]> d)) = Fin n ->
  exists l', setDone q id payload (Redis d [] l)
             = (Resolved (JStr "OK"),
                Redis (with_count q (Z.max 0 (n - 1))
                         (after_getCount q (<[id := Entry payload (expiry q)]> d)))
                      [] l').
Proof.
  intros Hn. unfold setDone.
  rewrite (await_eq _ _ _ _ _ (setRedis_healthy q d l id (JStr payload))). simpl.
  unfold await at 1. simpl.
  destruct (down1Count_healthy q _ (((l ++ [Sent (SET id payload (expiry q)) None])
             ++ [Emitted "setDone" id])%list) n Hn) as [l2 H2].
  rewrite (await_eq _ _ _ _ _ H2). simpl. eexists. reflexivity.
Qed.

Lemma removeRequest_absent id :
  d !! id = None ->
  removeRequest q id (Redis d [] l)
  = (Resolved (JNum (Fin 0)), Redis d [] (l ++ [Sent (GET id) None])).
Proof.
  intros H. unfold removeRequest, removeRequest_rest.
  rewrite (await_eq _ _ _ _ _ (checkDone_healthy id)). rewrite H. reflexivity.
Qed.

Lemma removeRequest_done id e :
  d !! id = Some e -> value e <> "pending" -> value e <> "" ->
  removeRequest q id (Redis d [] l)
  = (Resolved (JNum (Fin 1)),
     Redis (delete id d) [] ((l ++ [Sent (GET id) None]) ++ [Sent (DEL id) None])).
Proof.
  intros H Hp He. unfold removeRequest, removeRequest_rest.
  rewrite (await_eq _ _ _ _ _ (checkDone_healthy id)). rewrite H.
  apply String.eqb_neq in Hp, He. rewrite Hp. simpl.
  rewrite (await_eq _ _ _ _ _ (delRedis_healthy _ _ id)). rewrite H. simpl.
  rewrite He. reflexivity.
Qed.

Lemma removeRequest_falsy id e n :
  d !! id = Some e -> value e = "pending" \/ value e = "" ->
  ToNumber (getCount_value (delete id d)) = Fin n ->
  exists l', removeRequest q id (Redis d [] l)
             = (Resolved (JNum (Fin 1)),
                Redis (with_count q (Z.max 0 (n - 1)) (after_getCount q (delete id d)))
                      [] l').
Proof.
  intros H Hv Hn. unfold removeRequest, removeRequest_rest.
  rewrite (await_eq _ _ _ _ _ (checkDone_healthy id)). rewrite H.
  destruct (down1Count_healthy q _
              ((l ++ [Sent (GET id) None]) ++ [Sent (DEL id) None])%list n Hn)
    as [l2 H2].
  destruct Hv as [-> | ->]; simpl;
    rewrite (await_eq _ _ _ _ _ (delRedis_healthy _ _ id)); rewrite H; simpl;
    unfold when; rewrite (await_eq _ _ _ _ _ (await_eq _ _ _ _ _ H2)); simpl;
    eexists; reflexivity.
Qed.
End HealthyOperations.

(** ** Settling in line with the store *)

Arguments failures : simpl never.

Lemma failures_app evs1 evs2 : failures (evs1 ++ evs2) = (failures evs1 ++ failures evs2)%list.
Proof. unfold failures. apply omap_app. Qed.

Lemma verdict_weaken {A} (S T : string -> Prop) (p : promise A) evs :
  (forall s, S s -> T s) -> verdict S p evs -> verdict T p evs.
Proof. intros HST. destruct p as [a|[s|e]]; simpl; intuition. Qed.

Lemma head_app_failures (e : error) es1 es2 :
  head es1 = Some e -> head (es1 ++ es2)%list = Some e.
Proof. destruct es1; simpl; [discriminate | auto]. Qed.

Section Traced.
Lemma traced_resolve {A} S (a : A) : traced S (resolve a).
Proof. intros r. exists []. simpl. rewrite app_nil_r. auto. Qed.

Lemma traced_reject {A} (S : string -> Prop) s : S s -> traced (A := A) S (reject (RString s)).
Proof. intros Hs r. exists []. simpl. rewrite app_nil_r. auto. Qed.

Lemma traced_weaken {A} (S T : string -> Prop) (m : async A) :
  (forall s, S s -> T s) -> traced S m -> traced T m.
Proof.
  intros HST Hm r. destruct (Hm r) as (evs & Hl & Hv & Hf).
  exists evs. eauto using verdict_weaken.
Qed.

Lemma traced_send S c : traced S (send c).
Proof.
  intros r. unfold send. destruct (faults r) as [|[e|] fs] eqn:Hf; simpl.
  - exists [Sent c None]. auto.
  - exists [Sent c (Some e)]. repeat split; auto; discriminate.
  - exists [Sent c None]. repeat split; auto; discriminate.
Qed.

Lemma traced_emit S name arg : traced S (emit name arg).
Proof. intros r. exists [Emitted name arg]. simpl. auto. Qed.

Lemma traced_resume {A B} S (p : promise A) (k : A -> async B) :
  (forall a, traced S (k a)) ->
  forall r evs0, verdict S p evs0 ->
    exists evs, log (snd (resume p k r)) = (log r ++ evs)%list /\
                verdict S (fst (resume p k r)) (evs0 ++ evs) /\
                (faults r = [] -> faults (snd (resume p k r)) = [] /\ failures evs = []).
Proof.
  intros Hk r evs0 Hv. destruct p as [a|why]; simpl.
  - destruct (Hk a r) as (evs & Hl & Hv2 & Hf). exists evs.
    simpl in Hv. repeat split; auto; try (now apply Hf).
    destruct (fst (k a r)) as [b|[s|e]]; simpl in *;
      rewrite failures_app, Hv; simpl; intuition.
  - exists []. rewrite !app_nil_r. auto.
Qed.

Lemma traced_await {A B} S (m : async A) (k : A -> async B) :
  traced S m -> (forall a, traced S (k a)) -> traced S (await m k).
Proof.
  intros Hm Hk r. unfold await.
  destruct (Hm r) as (evs1 & Hl1 & Hv1 & Hf1). destruct (m r) as [p r1]; simpl in *.
  destruct (traced_resume S p k Hk r1 evs1 Hv1) as (evs2 & Hl2 & Hv2 & Hf2).
  exists (evs1 ++ evs2)%list.
  split; [now rewrite Hl2, Hl1, app_assoc|]. split; [exact Hv2|].
  intros H0. destruct (Hf1 H0) as [H1 E1]. destruct (Hf2 H1) as [H2 E2].
  split; [exact H2|]. now rewrite failures_app, E1, E2.
Qed.

Lemma traced_when {A} S b (m : async A) : traced S m -> traced S (when b m).
Proof.
  intros Hm. unfold when. destruct b; [|apply traced_resolve].
  apply traced_await; [exact Hm|]. intros. apply traced_resolve.
Qed.
End Traced.

Lemma traced_promise_all {A B} S (m1 : async A) (m2 : async B) :
  traced never m1 -> traced never m2 -> traced S (promise_all m1 m2).
Proof.
  intros H1 H2 r. unfold promise_all.
  destruct (H1 r) as (evs1 & Hl1 & Hv1 & Hf1). destruct (m1 r) as [p1 r1]; simpl in *.
  destruct (H2 r1) as (evs2 & Hl2 & Hv2 & Hf2). destruct (m2 r1) as [p2 r2]; simpl in *.
  exists (evs1 ++ evs2)%list. split; [now rewrite Hl2, Hl1, app_assoc|]. split.
  - destruct p1 as [a|[s|e]]; simpl in *;
      [|now destruct Hv1|rewrite failures_app; now apply head_app_failures].
    destruct p2 as [b|[s|e]]; simpl in *; rewrite failures_app, Hv1; simpl;
      [assumption|now destruct Hv2|assumption].
  - intros H0. destruct (Hf1 H0) as [F1 E1]. destruct (Hf2 F1) as [F2 E2].
    split; [exact F2|]. now rewrite failures_app, E1, E2.
Qed.

Lemma traced_promise_all_staged {A B C D} S
    (m1 : async A) (k1 : A -> async C) (m2 : async B) (k2 : B -> async D) :
  traced never m1 -> traced never m2 ->
  (forall a, traced never (k1 a)) -> (forall b, traced never (k2 b)) ->
  traced S (promise_all_staged m1 k1 m2 k2).
Proof.
  intros H1 H2 Hk1 Hk2 r. unfold promise_all_staged.
  destruct (H1 r) as (evs1 & Hl1 & Hv1 & Hf1). destruct (m1 r) as [p1 r1]; simpl in *.
  destruct (H2 r1) as (evs2 & Hl2 & Hv2 & Hf2). destruct (m2 r1) as [p2 r2]; simpl in *.
  assert (H3 : exists evs3, log (snd (resume p1 k1 r2)) = (log r2 ++ evs3)%list /\
            (forall a, p1 = Resolved a -> verdict never (fst (resume p1 k1 r2)) evs3) /\
            (forall why, p1 = Rejected why -> fst (resume p1 k1 r2) = Rejected why) /\
            (faults r2 = [] -> faults (snd (resume p1 k1 r2)) = [] /\ failures evs3 = [])).
  { destruct p1 as [a|why]; simpl.
    - destruct (Hk1 a r2) as (evs & Hl & Hv & Hf). exists evs.
      split; [exact Hl|]. split; [now intros ? [= <-]|]. split; [discriminate|exact Hf].
    - exists []. split; [now rewrite app_nil_r|]. split; [discriminate|].
      split; [now intros ? [= <-]|auto]. }
  destruct H3 as (evs3 & Hl3 & Hv3 & Hr3 & Hf3).
  destruct (resume p1 k1 r2) as [c r3]; simpl in *.
  assert (H4 : exists evs4, log (snd (resume p2 k2 r3)) = (log r3 ++ evs4)%list /\
            (forall b, p2 = Resolved b -> verdict never (fst (resume p2 k2 r3)) evs4) /\
            (faults r3 = [] -> faults (snd (resume p2 k2 r3)) = [] /\ failures evs4 = [])).
  { destruct p2 as [b|why]; simpl.
    - destruct (Hk2 b r3) as (evs & Hl & Hv & Hf). exists evs.
      split; [exact Hl|]. split; [now intros ? [= <-]|exact Hf].
    - exists []. split; [now rewrite app_nil_r|]. split; [discriminate|auto]. }
  destruct H4 as (evs4 & Hl4 & Hv4 & Hf4).
  destruct (resume p2 k2 r3) as [d r4]; simpl in *.
  exists (evs1 ++ evs2 ++ evs3 ++ evs4)%list.
  split; [now rewrite Hl4, Hl3, Hl2, Hl1, <- !app_assoc|]. split.
  - destruct p1 as [a|[s|e]]; simpl in *;
      [|now destruct Hv1|rewrite failures_app; now apply head_app_failures].
    destruct p2 as [b|[s|e]]; simpl in *;
      [|now destruct Hv2
       |rewrite !failures_app, Hv1; simpl; now apply head_app_failures].
    specialize (Hv3 a eq_refl). specialize (Hv4 b eq_refl).
    destruct c as [x|[s|e]]; simpl in *;
      [|now destruct Hv3
       |rewrite !failures_app, Hv1, Hv2; simpl; now apply head_app_failures].
    destruct d as [y|[s|e]]; simpl in *; rewrite !failures_app, Hv1, Hv2, Hv3; simpl;
      [assumption|now destruct Hv4|assumption].
  - intros H0. destruct (Hf1 H0) as [F1 E1]. destruct (Hf2 F1) as [F2 E2].
    destruct (Hf3 F2) as [F3 E3]. destruct (Hf4 F3) as [F4 E4].
    split; [exact F4|]. now rewrite !failures_app, E1, E2, E3, E4.
Qed.

Section TracedClass.
Variable q : AsyncApiQueue.

Lemma initializeRedis_traced : traced never (initializeRedis q).
Proof. apply traced_promise_all; apply traced_send. Qed.

Lemma getCount_rest_traced v : traced never (getCount_rest q v).
Proof.
  apply traced_await; [apply traced_when, initializeRedis_traced|].
  intros. apply traced_resolve.
Qed.

Lemma getSize_rest_traced v : traced never (getSize_rest q v).
Proof.
  apply traced_await; [apply traced_when, initializeRedis_traced|].
  intros. apply traced_resolve.
Qed.

Lemma getCount_traced : traced never (getCount q).
Proof. apply traced_await; [apply traced_send | apply getCount_rest_traced]. Qed.

Lemma getSize_traced : traced never (getSize q).
Proof. apply traced_await; [apply traced_send | apply getSize_rest_traced]. Qed.

Lemma up1Count_traced : traced never (up1Count q).
Proof. apply traced_await; [apply getCount_traced | intros; apply traced_send]. Qed.

Lemma down1Count_traced : traced never (down1Count q).
Proof. apply traced_await; [apply getCount_traced | intros; apply traced_send]. Qed.

Lemma isFullQueue_traced : traced never (isFullQueue q).
Proof.
  apply traced_await; [|intros; apply traced_resolve].
  apply traced_promise_all_staged;
    [apply traced_send | apply traced_send
    |apply getCount_rest_traced | apply getSize_rest_traced].
Qed.

Lemma addRequest_traced : traced (limit_of AddRequest) (addRequest q).
Proof.
  apply traced_await.
  - eapply traced_weaken; [|apply isFullQueue_traced]. intros ? [].
  - intros [].
    + now apply traced_reject.
    + eapply traced_weaken; [|apply up1Count_traced]. intros ? [].
Qed.

Lemma checkDone_traced id : traced never (checkDone id).
Proof. apply traced_await; [apply traced_send | intros; apply traced_resolve]. Qed.

Lemma removeRequest_traced id : traced never (removeRequest q id).
Proof.
  apply traced_await; [apply checkDone_traced|]. intros isDone. unfold removeRequest_rest.
  destruct (negb (is_null isDone)); [|apply traced_resolve].
  apply traced_await; [apply traced_send|]. intros res.
  apply traced_await; [apply traced_when, down1Count_traced|].
  intros. apply traced_resolve.
Qed.

Lemma setDone_traced id response : traced never (setDone q id response).
Proof.
  apply traced_await; [apply traced_send|]. intros res.
  apply traced_await; [apply traced_emit|]. intros _.
  apply traced_await; [apply down1Count_traced|]. intros. apply traced_resolve.
Qed.

Lemma perform_traced c : traced (limit_of c) (perform q c).
Proof.
  destruct c; simpl.
  - apply addRequest_traced.
  - apply traced_send.
  - apply checkDone_traced.
  - apply setDone_traced.
  - apply removeRequest_traced.
  - apply getSize_traced.
  - apply getCount_traced.
Qed.
End TracedClass.

(** ** The two copies, up to expiry *)

Lemma forget_reply c d : reply (forget_command c) (forget_entry <$> d) = reply c d.
Proof.
  destruct c; simpl; rewrite ?lookup_fmap; try reflexivity;
    now destruct (d !! key).
Qed.

Lemma forget_exec c d :
  exec (forget_command c) (forget_entry <$> d) = forget_entry <$> exec c d.
Proof.
  destruct c; simpl; [reflexivity | now rewrite fmap_insert | now rewrite fmap_delete].
Qed.

Section Simulates.
Lemma simulates_resolve {A} (a : A) : simulates (resolve a) (resolve a).
Proof. intros r. reflexivity. Qed.

Lemma simulates_reject {A} why : simulates (A := A) (reject why) (reject why).
Proof. intros r. reflexivity. Qed.

Lemma simulates_send c : simulates (send c) (send (forget_command c)).
Proof.
  intros [d fs l]. unfold send, forget. simpl.
  destruct fs as [|[e|] fs]; simpl;
    rewrite ?forget_reply, ?forget_exec, fmap_app; reflexivity.
Qed.

Lemma simulates_emit name arg : simulates (emit name arg) (emit name arg).
Proof. intros [d fs l]. unfold emit, forget. simpl. now rewrite fmap_app. Qed.

Lemma simulates_resume {A B} (p : promise A) (k1 k2 : A -> async B) :
  (forall a, simulates (k1 a) (k2 a)) -> simulates (resume p k1) (resume p k2).
Proof. intros Hk. destruct p; simpl; [apply Hk | apply simulates_reject]. Qed.

Lemma simulates_await {A B} (m1 m2 : async A) (k1 k2 : A -> async B) :
  simulates m1 m2 -> (forall a, simulates (k1 a) (k2 a)) ->
  simulates (await m1 k1) (await m2 k2).
Proof.
  intros Hm Hk r. unfold await. rewrite (Hm r).
  destruct (m1 r) as [p r1]. simpl. apply simulates_resume, Hk.
Qed.

Lemma simulates_when {A} b (m1 m2 : async A) :
  simulates m1 m2 -> simulates (when b m1) (when b m2).
Proof.
  intros Hm. unfold when. destruct b; [|apply simulates_resolve].
  apply simulates_await; [exact Hm|]. intros. apply simulates_resolve.
Qed.

Lemma simulates_promise_all {A B} (m1 m2 : async A) (n1 n2 : async B) :
  simulates m1 m2 -> simulates n1 n2 ->
  simulates (promise_all m1 n1) (promise_all m2 n2).
Proof.
  intros Hm Hn r. unfold promise_all. rewrite (Hm r).
  destruct (m1 r) as [p1 r1]. simpl. rewrite (Hn r1).
  destruct (n1 r1) as [p2 r2]. reflexivity.
Qed.

Lemma simulates_promise_all_staged {A B C D}
    (m1 m2 : async A) (k1 k2 : A -> async C)
    (n1 n2 : async B) (j1 j2 : B -> async D) :
  simulates m1 m2 -> simulates n1 n2 ->
  (forall a, simulates (k1 a) (k2 a)) -> (forall b, simulates (j1 b) (j2 b)) ->
  simulates (promise_all_staged m1 k1 n1 j1) (promise_all_staged m2 k2 n2 j2).
Proof.
  intros Hm Hn Hk Hj r. unfold promise_all_staged. rewrite (Hm r).
  destruct (m1 r) as [p1 r1]. simpl. rewrite (Hn r1).
  destruct (n1 r1) as [p2 r2]. simpl.
  rewrite (simulates_resume p1 k1 k2 Hk r2).
  destruct (resume p1 k1 r2) as [c r3]. simpl.
  rewrite (simulates_resume p2 j1 j2 Hj r3).
  destruct (resume p2 j1 r3) as [d r4]. reflexivity.
Qed.
End Simulates.

Section Copies.
Variable size : Z.
Variable expiration : positive.

Lemma setRedis_simulates key v :
  simulates (setRedis (lib size expiration) key v)
            (setRedis (part000 size) key v).
Proof. apply (simulates_send (SET key (ToString v) (Some expiration))). Qed.

Lemma getRedis_simulates key : simulates (getRedis key) (getRedis key).
Proof. apply (simulates_send (GET key)). Qed.

Lemma delRedis_simulates key : simulates (delRedis key) (delRedis key).
Proof. apply (simulates_send (DEL key)). Qed.

Lemma initializeRedis_simulates :
  simulates (initializeRedis (lib size expiration))
            (initializeRedis (part000 size)).
Proof. apply simulates_promise_all; apply setRedis_simulates. Qed.

Lemma getCount_rest_simulates v :
  simulates (getCount_rest (lib size expiration) v)
            (getCount_rest (part000 size) v).
Proof.
  apply simulates_await; [apply simulates_when, initializeRedis_simulates|].
  intros. apply simulates_resolve.
Qed.

Lemma getSize_rest_simulates v :
  simulates (getSize_rest (lib size expiration) v)
            (getSize_rest (part000 size) v).
Proof.
  apply simulates_await; [apply simulates_when, initializeRedis_simulates|].
  intros. apply simulates_resolve.
Qed.

Lemma getCount_simulates :
  simulates (getCount (lib size expiration))
            (getCount (part000 size)).
Proof.
  apply simulates_await; [apply getRedis_simulates | apply getCount_rest_simulates].
Qed.

Lemma getSize_simulates :
  simulates (getSize (lib size expiration))
            (getSize (part000 size)).
Proof.
  apply simulates_await; [apply getRedis_simulates | apply getSize_rest_simulates].
Qed.

Lemma up1Count_simulates :
  simulates (up1Count (lib size expiration))
            (up1Count (part000 size)).
Proof.
  apply simulates_await; [apply getCount_simulates|]. intros. apply setRedis_simulates.
Qed.

Lemma down1Count_simulates :
  simulates (down1Count (lib size expiration))
            (down1Count (part000 size)).
Proof.
  apply simulates_await; [apply getCount_simulates|]. intros. apply setRedis_simulates.
Qed.

Lemma isFullQueue_simulates :
  simulates (isFullQueue (lib size expiration))
            (isFullQueue (part000 size)).
Proof.
  apply simulates_await; [|intros; apply simulates_resolve].
  apply simulates_promise_all_staged;
    [apply getRedis_simulates | apply getRedis_simulates
    |apply getCount_rest_simulates | apply getSize_rest_simulates].
Qed.

Lemma addRequest_simulates :
  simulates (addRequest (lib size expiration))
            (addRequest (part000 size)).
Proof.
  apply simulates_await; [apply isFullQueue_simulates|].
  intros []; [apply simulates_reject | apply up1Count_simulates].
Qed.

Lemma checkDone_simulates id : simulates (checkDone id) (checkDone id).
Proof.
  apply simulates_await; [apply getRedis_simulates|]. intros. apply simulates_resolve.
Qed.

Lemma removeRequest_simulates id :
  simulates (removeRequest (lib size expiration) id)
            (removeRequest (part000 size) id).
Proof.
  apply simulates_await; [apply checkDone_simulates|]. intros isDone. unfold removeRequest_rest.
  destruct (negb (is_null isDone)); [|apply simulates_resolve].
  apply simulates_await; [apply delRedis_simulates|]. intros res.
  apply simulates_await; [apply simulates_when, down1Count_simulates|].
  intros. apply simulates_resolve.
Qed.

Lemma setDone_simulates id response :
  simulates (setDone (lib size expiration) id response) (setDone (part000 size) id response).
Proof.
  apply simulates_await; [apply setRedis_simulates|]. intros res.
  apply simulates_await; [apply simulates_emit|]. intros _.
  apply simulates_await; [apply down1Count_simulates|]. intros. apply simulates_resolve.
Qed.

Lemma initialize_simulates :
  simulates (initialize (lib size expiration))
            (initialize (part000 size)).
Proof.
  apply simulates_await; [apply getSize_simulates|]. intros.
  apply simulates_when, initializeRedis_simulates.
Qed.

Lemma perform_simulates c :
  simulates (perform (lib size expiration) c)
            (perform (part000 size) c).
Proof.
  destruct c; simpl.
  - apply addRequest_simulates.
  - apply setRedis_simulates.
  - apply checkDone_simulates.
  - apply setDone_simulates.
  - apply removeRequest_simulates.
  - apply getSize_simulates.
  - apply getCount_simulates.
Qed.

Lemma perform_all_simulates cs r :
  perform_all (part000 size) cs (forget r)
  = (fst (perform_all (lib size expiration) cs r), forget (snd (perform_all (lib size expiration) cs r))).
Proof.
  revert r. induction cs as [|c cs IH]; intros r; simpl; [reflexivity|].
  rewrite (perform_simulates c r). destruct (perform (lib size expiration) c r) as [p r1]. simpl.
  rewrite IH. destruct (perform_all (lib size expiration) cs r1) as [ps r2]. reflexivity.
Qed.
End Copies.

(** ** Invariants that every write of the class maintains *)

Section Closed.
Variable q : AsyncApiQueue.
Variable J : gmap string entry -> Prop.
Hypothesis J_set : forall d key v, J d -> J (<[key := Entry v (expiry q)]> d).
Hypothesis J_del : forall d key, J d -> J (delete key d).

Lemma send_get_closed key : keeps J anything (send (GET key)).
Proof. apply keeps_send; unfold anything; simpl; auto. Qed.

Lemma send_del_closed key : keeps J anything (send (DEL key)).
Proof. apply keeps_send; unfold anything; simpl; auto. Qed.

Lemma setRedis_closed key v : keeps J anything (setRedis q key v).
Proof. apply keeps_send; unfold anything; simpl; auto. Qed.

Lemma initializeRedis_closed : keeps J anything (initializeRedis q).
Proof.
  eapply keeps_weaken; [apply keeps_promise_all; apply setRedis_closed|].
  unfold anything. auto.
Qed.

Lemma getCount_rest_closed v : keeps J anything (getCount_rest q v).
Proof.
  eapply keeps_await; [eapply keeps_when, initializeRedis_closed|].
  intros. now apply keeps_resolve.
Qed.

Lemma getSize_rest_closed v : keeps J anything (getSize_rest q v).
Proof.
  eapply keeps_await; [eapply keeps_when, initializeRedis_closed|].
  intros. now apply keeps_resolve.
Qed.

Lemma getCount_closed : keeps J anything (getCount q).
Proof.
  eapply keeps_await; [apply send_get_closed|]. intros. apply getCount_rest_closed.
Qed.

Lemma getSize_closed : keeps J anything (getSize q).
Proof.
  eapply keeps_await; [apply send_get_closed|]. intros. apply getSize_rest_closed.
Qed.

Lemma up1Count_closed : keeps J anything (up1Count q).
Proof.
  eapply keeps_await; [apply getCount_closed|]. intros. apply setRedis_closed.
Qed.

Lemma down1Count_closed : keeps J anything (down1Count q).
Proof.
  eapply keeps_await; [apply getCount_closed|]. intros. apply setRedis_closed.
Qed.

Lemma isFullQueue_closed : keeps J anything (isFullQueue q).
Proof.
  eapply keeps_await; [|intros; now apply keeps_resolve].
  apply keeps_promise_all_staged with (F1 := anything) (F2 := anything) (G1 := anything) (G2 := anything).
  - apply send_get_closed.
  - apply send_get_closed.
  - intros. apply getCount_rest_closed.
  - intros. apply getSize_rest_closed.
Qed.

Lemma addRequest_closed : keeps J anything (addRequest q).
Proof.
  eapply keeps_await; [apply isFullQueue_closed|].
  intros [] _; [apply keeps_reject | apply up1Count_closed].
Qed.

Lemma checkDone_closed id : keeps J anything (checkDone id).
Proof.
  eapply keeps_await; [apply send_get_closed|]. intros. now apply keeps_resolve.
Qed.

Lemma removeRequest_closed id : keeps J anything (removeRequest q id).
Proof.
  eapply keeps_await; [apply checkDone_closed|].
  intros isDone _. unfold removeRequest_rest.
  destruct (negb (is_null isDone)); [|now apply keeps_resolve].
  eapply keeps_await; [apply send_del_closed|]. intros res _.
  eapply keeps_await; [eapply keeps_when, down1Count_closed|].
  intros. now apply keeps_resolve.
Qed.

Lemma setDone_closed id response : keeps J anything (setDone q id response).
Proof.
  eapply keeps_await; [apply setRedis_closed|]. intros res _.
  eapply keeps_await; [apply keeps_emit|]. intros _ _.
  eapply keeps_await; [apply down1Count_closed|]. intros. now apply keeps_resolve.
Qed.

Lemma initialize_closed : keeps J anything (initialize q).
Proof.
  eapply keeps_await; [apply getSize_closed|]. intros.
  eapply keeps_weaken; [eapply keeps_when, initializeRedis_closed | auto].
Qed.

Lemma perform_closed c : keeps J anything (perform q c).
Proof.
  destruct c; simpl.
  - apply addRequest_closed.
  - apply setRedis_closed.
  - apply checkDone_closed.
  - apply setDone_closed.
  - apply removeRequest_closed.
  - apply getSize_closed.
  - apply getCount_closed.
Qed.
End Closed.

Lemma expires_within_insert e d key v :
  expires_within e d -> expires_within e (<[key := Entry v (Some e)]> d).
Proof.
  intros H k en. destruct (decide (key = k)) as [->|Hk].
  - rewrite lookup_insert_eq. intros [= <-]. exists e. split; [reflexivity | lia].
  - rewrite lookup_insert_ne by exact Hk. apply H.
Qed.

Lemma expires_within_delete e d key :
  expires_within e d -> expires_within e (delete key d).
Proof.
  intros H k en. destruct (decide (key = k)) as [->|Hk].
  - now rewrite lookup_delete_eq.
  - rewrite lookup_delete_ne by exact Hk. apply H.
Qed.

Lemma expires_within_age e dt d :
  expires_within e d -> expires_within e (omap (age dt) d).
Proof.
  intros H k en. rewrite lookup_omap.
  destruct (d !! k) as [en0|] eqn:Hk; simpl; [|discriminate].
  destruct (H k en0 Hk) as (t & Ht & Hle). unfold age. rewrite Ht.
  destruct (Pos.leb_spec t dt); [discriminate|]. intros [= <-]. simpl.
  exists (t - dt)%positive. split; [reflexivity | lia].
Qed.

Lemma expired_all e d : expires_within e d -> omap (age e) d = ∅.
Proof.
  intros H. apply map_eq. intros k. rewrite lookup_omap, lookup_empty.
  destruct (d !! k) as [en|] eqn:Hk; simpl; [|reflexivity].
  destruct (H k en Hk) as (t & Ht & Hle). unfold age. rewrite Ht.
  destruct (Pos.leb_spec t e); [reflexivity | lia].
Qed.

Lemma reachable_expires_within size e r :
  reachable (lib size e) (fun _ => True) r -> expires_within e (db r).
Proof.
  induction 1 as [fs | r Hr IH | r c Hr IH _ | r dt Hr IH].
  - apply (initialize_closed (lib size e) (expires_within e)); simpl;
      auto using expires_within_insert, expires_within_delete.
    intros k en. now rewrite lookup_empty.
  - apply (initialize_closed (lib size e) (expires_within e)); simpl;
      auto using expires_within_insert, expires_within_delete.
  - apply (perform_closed (lib size e) (expires_within e)); simpl;
      auto using expires_within_insert, expires_within_delete.
  - simpl. now apply expires_within_age.
Qed.

(** * The claims *)

(** ** The flow of the README, with a capacity of 2 *)

Example capacity_two_scenario :
  let q := lib 2 86400 in
  let r0 := run (initialize q) (store ∅) in
  let r2 := run (addRequest q) (run (addRequest q) r0) in
  let r3 := run (setDone q "a" "ok") (run (setRequest q "a") r2) in
  let r4 := run (removeRequest q "a") r3 in
  inFlight r2 = Fin 2 /\
  result (addRequest q) r2 = Rejected QueueFull /\
  observe (JBool false) = Some Pending /\
  result (checkDone "a") (run (setRequest q "a") r2) = Resolved (JBool false) /\
  inFlight r3 = Fin 1 /\
  result (checkDone "a") r3 = Resolved (JStr "ok") /\
  result (removeRequest q "a") r3 = Resolved (JNum (Fin 1)) /\
  inFlight r4 = Fin 1 /\ slot "a" r4 = Absent /\
  result (checkDone "never") r4 = Resolved JNull /\
  result (addRequest q) r4 = Resolved (JStr "OK").
Proof. vm_compute. repeat split. Qed.

(** ** Admission (C1) *)

(** The admission test of [addRequest] on a store that answers: it is the
    JavaScript comparison of the two values as they were read. *)
Lemma addRequest_rejects_iff q d l :
  result (addRequest q) (Redis d [] l) = Rejected QueueFull
  <-> js_ge (getCount_value d) (getSize_value q d) = true.
Proof.
  unfold result. destruct (js_ge (getCount_value d) (getSize_value q d)) eqn:Hge.
  - destruct (addRequest_full q d l Hge) as [l' ->]. simpl. tauto.
  - destruct (isFullQueue_healthy q d l) as [l1 H1].
    unfold addRequest. rewrite (await_eq _ _ _ _ _ H1). simpl. rewrite Hge.
    split; [|discriminate]. intros H.
    pose proof (up1Count_traced q (Redis (after_isFullQueue q d) [] l1))
      as (evs & _ & Hv & _).
    rewrite H in Hv. now destruct Hv.
Qed.

Lemma single_digits_compare i c :
  0 <= i <= 9 -> 0 <= c <= 9 ->
  js_ge (JStr (NumberToString (Fin i))) (JStr (NumberToString (Fin c))) = (c <=? i).
Proof.
  intros Hi Hc.
  assert (Ei : i = 0 \/ i = 1 \/ i = 2 \/ i = 3 \/ i = 4 \/ i = 5 \/ i = 6 \/ i = 7
               \/ i = 8 \/ i = 9) by lia.
  assert (Ec : c = 0 \/ c = 1 \/ c = 2 \/ c = 3 \/ c = 4 \/ c = 5 \/ c = 6 \/ c = 7
               \/ c = 8 \/ c = 9) by lia.
  clear Hi Hc.
  repeat (destruct Ei as [-> | Ei]); try subst i;
    repeat (destruct Ec as [-> | Ec]); try subst c; reflexivity.
Qed.

Lemma with_count_again q n m d : with_count q n (with_count q m d) = with_count q n d.
Proof. unfold with_count. apply insert_insert_eq. Qed.

Lemma with_count_reset q d : with_count q 0 (reset q d) = reset q d.
Proof.
  apply map_eq. intros k. unfold with_count.
  destruct (decide (k = QUEUE_COUNT)) as [->|Hk].
  - now rewrite lookup_insert_eq, reset_count.
  - now rewrite lookup_insert_ne by congruence.
Qed.

Lemma initialize_fresh q :
  exists l, initialize q (store ∅) = (Resolved tt, Redis (reset q ∅) [] l).
Proof.
  destruct (getSize_healthy q ∅ []) as [l1 H1].
  unfold initialize, store. rewrite (await_eq _ _ _ _ _ H1).
  unfold getSize_value, after_getSize. rewrite lookup_empty. cbn [resume].
  unfold js_neq, number_eqb. cbn [ToNumber]. rewrite Z.eqb_refl. cbn [negb when].
  eexists. reflexivity.
Qed.

Section SingleDigit.
Variable q : AsyncApiQueue.
Hypothesis single_digit : 0 <= static_size q <= 9.

Lemma counted_views i :
  getCount_value (with_count q i (reset q ∅)) = JStr (NumberToString (Fin i)) /\
  getSize_value q (with_count q i (reset q ∅))
  = JStr (NumberToString (Fin (static_size q))) /\
  after_isFullQueue q (with_count q i (reset q ∅)) = with_count q i (reset q ∅).
Proof.
  unfold getCount_value, getSize_value, after_isFullQueue, with_count.
  rewrite lookup_insert_eq, lookup_insert_ne by auto with queue.
  now rewrite reset_size.
Qed.

Lemma reserve_state (i : nat) :
  Z.of_nat i <= static_size q ->
  exists l, reserve q i (run (initialize q) (store ∅))
            = Redis (with_count q (Z.of_nat i) (reset q ∅)) [] l.
Proof.
  induction i as [|i IH]; intros Hi.
  - destruct (initialize_fresh q) as [l Hl]. exists l.
    unfold reserve, run. simpl. rewrite Hl. cbn [snd]. now rewrite with_count_reset.
  - destruct IH as [l Hl]; [lia|].
    destruct (counted_views (Z.of_nat i)) as (Hc & Hs & Ha).
    assert (Hge : js_ge (getCount_value (with_count q (Z.of_nat i) (reset q ∅)))
                        (getSize_value q (with_count q (Z.of_nat i) (reset q ∅))) = false).
    { rewrite Hc, Hs, single_digits_compare by lia. apply Z.leb_gt. lia. }
    assert (Hn : ToNumber (getCount_value
                   (after_isFullQueue q (with_count q (Z.of_nat i) (reset q ∅))))
                 = Fin (Z.of_nat i)).
    { rewrite Ha. apply with_count_value. }
    destruct (addRequest_accepted q _ l _ Hge Hn) as [l' H].
    exists l'. unfold reserve in *. rewrite Nat.iter_succ, Hl. unfold run. rewrite H.
    cbn [snd]. rewrite Ha, with_count_again. do 2 f_equal. lia.
Qed.

(** With a capacity of a single digit the count and the capacity are
    compared as the numbers they spell: from a fresh store exactly
    [size] reservations are accepted, each raising the count by one, and
    the next one is rejected and writes nothing. *)
Lemma admission_single_digit :
  let r0 := run (initialize q) (store ∅) in
  (forall i : nat, Z.of_nat i < static_size q ->
     result (addRequest q) (reserve q i r0) = Resolved (JStr "OK") /\
     inFlight (reserve q i r0) = Fin (Z.of_nat i) /\
     inFlight (reserve q (S i) r0) = Fin (Z.of_nat i + 1)) /\
  (forall c : nat, Z.of_nat c = static_size q ->
     result (addRequest q) (reserve q c r0) = Rejected QueueFull /\
     db (run (addRequest q) (reserve q c r0)) = db (reserve q c r0)).
Proof.
  intros r0. split.
  - intros i Hi.
    destruct (reserve_state i) as [l Hl]; [lia|].
    destruct (reserve_state (S i)) as [l' Hl']; [lia|].
    fold r0 in Hl, Hl'. rewrite Hl, Hl', !inFlight_value, !with_count_value.
    destruct (counted_views (Z.of_nat i)) as (Hc & Hs & Ha).
    split; [|split; [reflexivity | f_equal; lia]].
    assert (Hge : js_ge (getCount_value (with_count q (Z.of_nat i) (reset q ∅)))
                        (getSize_value q (with_count q (Z.of_nat i) (reset q ∅))) = false).
    { rewrite Hc, Hs, single_digits_compare by lia. apply Z.leb_gt. lia. }
    assert (Hn : ToNumber (getCount_value
                   (after_isFullQueue q (with_count q (Z.of_nat i) (reset q ∅))))
                 = Fin (Z.of_nat i)).
    { rewrite Ha. apply with_count_value. }
    destruct (addRequest_accepted q _ l _ Hge Hn) as [l2 H]. unfold result.
    now rewrite H.
  - intros c Hc. destruct (reserve_state c) as [l Hl]; [lia|].
    fold r0 in Hl. rewrite Hl.
    destruct (counted_views (Z.of_nat c)) as (Hv & Hs & Ha).
    assert (Hge : js_ge (getCount_value (with_count q (Z.of_nat c) (reset q ∅)))
                        (getSize_value q (with_count q (Z.of_nat c) (reset q ∅))) = true).
    { rewrite Hv, Hs, single_digits_compare by lia. apply Z.leb_le. lia. }
    destruct (addRequest_full q _ l Hge) as [l2 H]. unfold result, run.
    rewrite H. cbn [fst snd db]. rewrite Ha. split; reflexivity.
Qed.
End SingleDigit.

(** C1 (the code departs from the claim): with a capacity of 10 the third
    reservation is rejected with 'no-of-request-is-at-limit' although only
    2 requests are in flight, because [isFullQueue] compares the strings
    "2" and "10" read from the store. *)
Theorem addRequest_rejects_third_of_ten :
  let q := lib 10 86400 in
  let r0 := run (initialize q) (store ∅) in
  let r1 := run (addRequest q) r0 in
  let r2 := run (addRequest q) r1 in
  persisted QUEUE_SIZE r0 = Some "10" /\ inFlight r0 = Fin 0 /\
  result (addRequest q) r0 = Resolved (JStr "OK") /\ inFlight r1 = Fin 1 /\
  result (addRequest q) r1 = Resolved (JStr "OK") /\ inFlight r2 = Fin 2 /\
  result (addRequest q) r2 = Rejected QueueFull /\
  persisted QUEUE_COUNT (run (addRequest q) r2) = Some "2" /\
  js_ge (JStr "2") (JStr "10") = true.
Proof. vm_compute. repeat split. Qed.

(** ** Errors (C7) *)

Lemma fails_first_send c : fails_first (send c).
Proof. intros d e fs l. reflexivity. Qed.

Lemma fails_first_await {A B} (m : async A) (k : A -> async B) :
  fails_first m -> fails_first (await m k).
Proof.
  intros Hm d e fs l. unfold await. specialize (Hm d e fs l).
  destruct (m (Redis d (Some e :: fs) l)) as [p r1]. simpl in Hm. now subst p.
Qed.

Lemma fails_first_promise_all_staged {A B C D}
    (m1 : async A) (k1 : A -> async C) (m2 : async B) (k2 : B -> async D) :
  fails_first m1 -> fails_first (promise_all_staged m1 k1 m2 k2).
Proof.
  intros Hm d e fs l. unfold promise_all_staged. specialize (Hm d e fs l).
  destruct (m1 (Redis d (Some e :: fs) l)) as [p1 r1]. simpl in Hm. subst p1.
  destruct (m2 r1) as [p2 r2]. simpl.
  now destruct (resume p2 k2 r2) as [p4 r4].
Qed.

Lemma fails_first_perform q c : fails_first (perform q c).
Proof.
  destruct c; simpl;
    repeat (apply fails_first_await || apply fails_first_promise_all_staged);
    apply fails_first_send.
Qed.


(** C7: every public operation appends the commands it sends to the log of
    the store and settles in line with them: it resolves, or rejects with
    'no-of-request-is-at-limit' (only [addRequest] does), exactly when none
    of its commands failed, and otherwise rejects with the very error of
    the first command that failed, so no failure is retried away; in
    particular it rejects with the error of its first command when that one
    fails.  On a store that answers every command no operation fails with a
    store error, and an absent slot is a normal result: [null] for
    [checkDone], 0 for [removeRequest]. *)
Theorem perform_settles q c r :
  (exists evs,
     log (run (perform q c) r) = (log r ++ evs)%list /\
     verdict (limit_of c) (result (perform q c) r) evs) /\
  (faults r = [] ->
     forall e, result (perform q c) r <> Rejected (StoreUnavailable e)) /\
  (faults r = [] -> forall id, db r !! id = None ->
     result (checkDone id) r = Resolved JNull /\
     result (removeRequest q id) r = Resolved (JNum (Fin 0))) /\
  (forall d e fs l,
     result (perform q c) (Redis d (Some e :: fs) l) = Rejected (StoreUnavailable e)).
Proof.
  destruct (perform_traced q c r) as (evs & Hl & Hv & Hf).
  split; [|split; [|split]].
  - exists evs. split; assumption.
  - intros H0 e He. destruct (Hf H0) as [_ Hnone].
    unfold result in He. rewrite He in Hv. simpl in Hv.
    rewrite Hnone in Hv. discriminate.
  - intros H0 id Hid. destruct r as [d fs l]. simpl in H0, Hid. subst fs.
    unfold result. rewrite checkDone_healthy, (removeRequest_absent q d l id Hid).
    now rewrite Hid.
  - exact (fails_first_perform q c).
Qed.

Lemma perform_settles_witness :
  result (perform (lib 5 60) (CheckDone "a")) (store ∅) = Resolved JNull /\
  result (perform (lib 5 60) (RemoveRequest "a")) (store ∅) = Resolved (JNum (Fin 0)).
Proof.
  exact (proj1 (proj2 (proj2 (perform_settles (lib 5 60) AddRequest (store ∅))))
           eq_refl "a" eq_refl).
Defined.

(** A failing store, traced by hand: the read of the counter fails, and
    [setDone] rejects with that error after its write went through. *)
Example setDone_store_failure :
  let q := lib 5 60 in
  let boom := RedisError "ECONNRESET" in
  let r := Redis ∅ [None; Some boom] [] in
  result (setDone q "a" "ok") r = Rejected (StoreUnavailable boom) /\
  log (run (setDone q "a" "ok") r)
  = [Sent (SET "a" "ok" (Some 60%positive)) None; Emitted "setDone" "a";
     Sent (GET QUEUE_COUNT) (Some boom)].
Proof. vm_compute. split; reflexivity. Qed.

(** ** The getters (C8) *)

(** C8: on a store that answers, [getSize] finds no QUEUE_SIZE: it writes
    count 0 and the configured size and resolves to the configured size;
    [getCount] finds no QUEUE_COUNT: it writes the same and resolves to 0;
    with both keys present each getter sends its one read, writes nothing
    and resolves to the persisted value. *)
Theorem getters_initialize_when_absent q d l :
  (d !! QUEUE_SIZE = None ->
     result (getSize q) (Redis d [] l) = Resolved (JNum (Fin (static_size q))) /\
     db (run (getSize q) (Redis d [] l)) = reset q d) /\
  (d !! QUEUE_COUNT = None ->
     result (getCount q) (Redis d [] l) = Resolved (JNum (Fin 0)) /\
     db (run (getCount q) (Redis d [] l)) = reset q d) /\
  (persisted QUEUE_SIZE (store (reset q d)) = Some (NumberToString (Fin (static_size q))) /\
   persisted QUEUE_COUNT (store (reset q d)) = Some "0" /\
   inFlight (store (reset q d)) = Fin 0) /\
  (forall es ec, d !! QUEUE_SIZE = Some es -> d !! QUEUE_COUNT = Some ec ->
     getSize q (Redis d [] l)
     = (Resolved (JStr (value es)), Redis d [] (l ++ [Sent (GET QUEUE_SIZE) None])) /\
     getCount q (Redis d [] l)
     = (Resolved (JStr (value ec)), Redis d [] (l ++ [Sent (GET QUEUE_COUNT) None]))).
Proof.
  split; [|split; [|split]].
  - intros H. unfold result, run. destruct (getSize_healthy q d l) as [l' ->].
    unfold getSize_value, after_getSize. now rewrite H.
  - intros H. unfold result, run. destruct (getCount_healthy q d l) as [l' ->].
    unfold getCount_value, after_getCount. now rewrite H.
  - unfold persisted, inFlight. simpl. rewrite reset_size, reset_count. auto.
  - intros es ec Hs Hc. split; run_async; rewrite ?Hs, ?Hc; reflexivity.
Qed.

Lemma getters_initialize_when_absent_witness :
  result (getSize (lib 5 60)) (store ∅) = Resolved (JNum (Fin 5)) /\
  db (run (getSize (lib 5 60)) (store ∅)) = reset (lib 5 60) ∅.
Proof.
  exact (proj1 (getters_initialize_when_absent (lib 5 60) ∅ []) eq_refl).
Defined.


(** ** Completion (C2) *)

Lemma after_isFullQueue_natural q d :
  counter_ok d ->
  exists k, ToNumber (getCount_value (after_isFullQueue q d)) = Fin k /\ 0 <= k.
Proof.
  intros (n & Hn & H0). unfold store in Hn. rewrite inFlight_value in Hn.
  unfold after_isFullQueue.
  assert (H00 : ToNumber (getCount_value (reset q d)) = Fin 0 /\ 0 <= 0).
  { unfold getCount_value. rewrite reset_count. split; [reflexivity | lia]. }
  destruct (d !! QUEUE_COUNT) as [ec|] eqn:Hc; [destruct (d !! QUEUE_SIZE)|]; eauto.
Qed.

(** C2, as the code has it: on a store that answers, from any state whose
    counter holds a natural number within the safe integers, after a
    successful [addRequest], then [setRequest(id)] and
    [setDone(id, payload)], [checkDone(id)] resolves to the payload and the
    in-flight count is one less than right after [addRequest], for every id
    other than the counter key QUEUE_COUNT and every payload other than the
    marker "pending". *)
Theorem setDone_then_checkDone q id payload d l tok n :
  inFlight (Redis d [] l) = Fin n ->
  0 <= n ->
  safe n ->
  result (addRequest q) (Redis d [] l) = Resolved tok ->
  id <> QUEUE_COUNT ->
  payload <> "pending" ->
  completes q id payload (Redis d [] l).
Proof.
  intros Hcount Hnat Hsafe Hres Hid Hpay. unfold completes.
  assert (Hok : counter_ok d) by (exists n; split; assumption).
  destruct (after_isFullQueue_natural q d Hok) as (k & Hk & Hk0).
  destruct (js_ge (getCount_value d) (getSize_value q d)) eqn:Hge.
  { destruct (addRequest_full q d l Hge) as [l' H]. unfold result in Hres.
    rewrite H in Hres. discriminate. }
  destruct (addRequest_accepted q d l k Hge Hk) as [l1 H1].
  set (d1 := with_count q (k + 1) (after_isFullQueue q d)) in *.
  pose proof (setRedis_healthy q d1 l1 id (JStr "pending")) as H2.
  set (d2 := <[id := Entry "pending" (expiry q)]> d1) in *.
  cbn [ToString] in H2.
  assert (Hn : ToNumber (getCount_value (<[id := Entry payload (expiry q)]> d2)) = Fin (k + 1)).
  { unfold getCount_value, d2, d1, with_count. lookups. simpl.
    apply StringToNumber_NumberToString. }
  destruct (setDone_healthy q d2 (l1 ++ [Sent (SET id "pending" (expiry q)) None])
              id payload (k + 1) Hn) as [l3 H3].
  rewrite after_getCount_present in H3
    by (unfold d2, d1, with_count; lookups; eauto).
  unfold run, result, setRequest. rewrite H1. cbn [fst snd]. rewrite H2.
  cbn [fst snd]. subst d2. rewrite H3. cbn [fst snd]. split.
  - rewrite checkDone_healthy. unfold with_count. lookups. simpl.
    apply String.eqb_neq in Hpay. now rewrite Hpay.
  - exists (k + 1). subst d1. rewrite !inFlight_value, !with_count_value.
    split; [reflexivity|]. f_equal. lia.
Qed.

Lemma setDone_then_checkDone_witness :
  completes (lib 2 60) "a" "ok"
    (Redis (<[QUEUE_SIZE := Entry "2" (Some 60%positive)]>
              (<[QUEUE_COUNT := Entry "0" (Some 60%positive)]> ∅)) [] []).
Proof.
  apply (setDone_then_checkDone (lib 2 60) "a" "ok" _ [] (JStr "OK") 0).
  - reflexivity.
  - lia.
  - unfold safe, MAX_SAFE_INTEGER. lia.
  - reflexivity.
  - discriminate.
  - discriminate.
Defined.

(** C2 fails as stated: a payload that spells "pending" is read back as
    pending, and a request id that spells QUEUE_COUNT is overwritten by
    the counter. *)
Lemma completes_counterexample :
  let r := run (initialize (lib 5 60)) (store ∅) in
  result (addRequest (lib 5 60)) r = Resolved (JStr "OK") /\
  ~ completes (lib 5 60) "a" "pending" r /\
  result (checkDone "a")
    (run (setDone (lib 5 60) "a" "pending")
       (run (setRequest (lib 5 60) "a") (run (addRequest (lib 5 60)) r)))
  = Resolved (JBool false) /\
  ~ completes (lib 5 60) "QUEUE_COUNT" "R" r.
Proof.
  repeat split.
  - unfold completes. intros [H _]. vm_compute in H. discriminate H.
  - unfold completes. intros [H _]. vm_compute in H. discriminate H.
Qed.

(** ** Removal (C3) *)

Lemma after_getCount_other q d key :
  key <> QUEUE_COUNT -> key <> QUEUE_SIZE ->
  after_getCount q d !! key = d !! key.
Proof.
  intros Hc Hs. unfold after_getCount.
  destruct (d !! QUEUE_COUNT); [reflexivity | now apply reset_other].
Qed.

Lemma removeRequest_rest_gone q id d l :
  slot id (Redis d [] l) = Absent ->
  forall isDone, is_null isDone = false ->
    removeRequest_rest q id isDone (Redis d [] l)
    = (Resolved (JNum (Fin 0)), Redis d [] (l ++ [Sent (DEL id) None])).
Proof.
  unfold slot. cbn [db]. intros Hid isDone Hnull.
  destruct (d !! id) as [e|] eqn:He;
    [destruct (String.eqb (value e) "pending"); discriminate|].
  unfold removeRequest_rest. rewrite Hnull. cbn [negb].
  rewrite (await_eq _ _ _ _ _ (delRedis_healthy d l id)). rewrite He.
  cbn. now rewrite delete_id.
Qed.

(** C3, as the code has it: on a store that answers and whose counter
    holds a safe integer, for every request id other than the two counter
    keys, [removeRequest] on an absent slot resolves to 0 after its one
    read; on a done slot with a non-empty payload it deletes the key,
    resolves to 1 and leaves the count; on a pending slot it deletes the
    key, resolves to 1 and lowers the count by one, not below 0.  The count
    is lowered only when the deletion succeeded: when the slot that was
    read, pending or done, is gone by the time the delete arrives, the
    delete answers 0, [removeRequest] resolves to 0 and sends nothing
    more. *)
Theorem removeRequest_by_slot q id d l n :
  id <> QUEUE_COUNT ->
  id <> QUEUE_SIZE ->
  inFlight (Redis d [] l) = Fin n ->
  safe n ->
  slot id (Redis d [] l) <> Done "" ->
  removes q id (Redis d [] l) /\
  (slot id (Redis d [] l) = Absent ->
   forall isDone, is_null isDone = false ->
     removeRequest_rest q id isDone (Redis d [] l)
     = (Resolved (JNum (Fin 0)), Redis d [] (l ++ [Sent (DEL id) None]))).
Proof.
  intros Hc Hs Hn Hsafe Hne. split; [|now apply removeRequest_rest_gone].
  unfold removes, slot in *. simpl in *.
  rewrite inFlight_value in Hn.
  destruct (d !! id) as [e|] eqn:Hid.
  - destruct (String.eqb_spec (value e) "pending") as [Hp|Hp].
    + assert (Hn' : ToNumber (getCount_value (delete id d)) = Fin n).
      { unfold getCount_value in *. now lookups. }
      destruct (removeRequest_falsy q d l id e n Hid (or_introl Hp) Hn') as [l' H].
      unfold result, run. rewrite H. simpl. split; [reflexivity|]. split.
      * unfold with_count. lookups. rewrite after_getCount_other by assumption.
        now lookups.
      * exists n. rewrite !inFlight_value, with_count_value. auto.
    + assert (He : value e <> "") by (intros He; apply Hne; now rewrite He).
      unfold result, run. rewrite (removeRequest_done q d l id e Hid Hp He). simpl.
      split; [reflexivity|]. split; [reflexivity|].
      unfold inFlight. simpl. now lookups.
  - unfold result, run. rewrite (removeRequest_absent q d l id Hid). auto.
Qed.

Lemma removeRequest_by_slot_witness :
  removes (lib 2 60) "a"
    (Redis (<["a" := Entry "pending" (Some 60%positive)]>
              (<[QUEUE_COUNT := Entry "1" (Some 60%positive)]> ∅)) [] []).
Proof.
  apply (removeRequest_by_slot (lib 2 60) "a" _ [] 1).
  - discriminate.
  - discriminate.
  - reflexivity.
  - unfold safe, MAX_SAFE_INTEGER. lia.
  - vm_compute. discriminate.
Defined.

(** The empty payload: [!isDone] holds of a done slot whose payload is the
    empty string, and [removeRequest] lowers the count that [setDone] had
    lowered already. *)
Lemma removeRequest_empty_payload :
  let q := lib 5 60 in
  let r := run (setDone q "a" "")
             (run (setRequest q "a")
                (run (addRequest q) (run (addRequest q) (run (initialize q) (store ∅))))) in
  slot "a" r = Done "" /\ inFlight r = Fin 1 /\
  result (removeRequest q "a") r = Resolved (JNum (Fin 1)) /\
  inFlight (run (removeRequest q "a") r) = Fin 0.
Proof. vm_compute. repeat split. Qed.

(** C3 fails as stated: removing the request id QUEUE_COUNT, read as a done
    slot, deletes the counter and so changes the in-flight count; a done
    slot with the empty payload has the count lowered once more; and the
    pending key QUEUE_SIZE, removed from a store without a counter, is
    written back by the initialization. *)
Lemma removes_counterexample :
  let q := lib 5 60 in
  let r1 := run (addRequest q) (run (initialize q) (store ∅)) in
  let r2 := run (setDone q "a" "") (run (setRequest q "a") (run (addRequest q) r1)) in
  let r3 := run (setRequest q "QUEUE_SIZE") (store ∅) in
  (slot "QUEUE_COUNT" r1 = Done "1" /\ ~ removes q "QUEUE_COUNT" r1) /\
  (slot "a" r2 = Done "" /\ ~ removes q "a" r2) /\
  (slot "QUEUE_SIZE" r3 = Pending /\ ~ removes q "QUEUE_SIZE" r3).
Proof.
  intros q r1 r2 r3.
  assert (H1 : slot "QUEUE_COUNT" r1 = Done "1") by (vm_compute; reflexivity).
  assert (H2 : slot "a" r2 = Done "") by (vm_compute; reflexivity).
  assert (H3 : slot "QUEUE_SIZE" r3 = Pending) by (vm_compute; reflexivity).
  repeat split; try assumption; unfold removes; intros H.
  - rewrite H1 in H. destruct H as (_ & _ & H). vm_compute in H. discriminate H.
  - rewrite H2 in H. destruct H as (_ & _ & H). vm_compute in H. discriminate H.
  - rewrite H3 in H. destruct H as (_ & H & _). vm_compute in H. discriminate H.
Qed.

(** ** Completion without a reservation (C10) *)

(** C10, as the code has it: on a store that answers and whose counter
    holds a safe integer, for every request id other than the two counter keys
    and whatever the slot held, [setDone(id, payload)] resolves, leaves the
    payload under [id] and lowers the count by one, not below 0; a second
    [setDone] on the same id lowers it again. *)
Theorem setDone_unconditional q id payload d l n :
  id <> QUEUE_COUNT ->
  id <> QUEUE_SIZE ->
  inFlight (Redis d [] l) = Fin n ->
  safe n ->
  marks_done q id payload (Redis d [] l).
Proof.
  intros Hc Hs Hn Hsafe. rewrite inFlight_value in Hn.
  assert (Hn1 : ToNumber (getCount_value (<[id := Entry payload (expiry q)]> d)) = Fin n).
  { unfold getCount_value in *. now lookups. }
  destruct (setDone_healthy q d l id payload n Hn1) as [l1 H1].
  assert (Hn2 : ToNumber (getCount_value
                  (<[id := Entry payload (expiry q)]>
                     (with_count q (Z.max 0 (n - 1))
                        (after_getCount q (<[id := Entry payload (expiry q)]> d)))))
                = Fin (Z.max 0 (n - 1))).
  { unfold getCount_value, with_count. lookups. simpl.
    apply StringToNumber_NumberToString. }
  destruct (setDone_healthy q _ l1 id payload _ Hn2) as [l2 H2].
  unfold marks_done, result, run. rewrite H1. cbn [fst snd]. rewrite H2.
  cbn [fst snd db].
  split; [reflexivity|]. split.
  - unfold with_count. lookups. rewrite after_getCount_other by assumption.
    now lookups.
  - exists n. rewrite !inFlight_value, !with_count_value.
    repeat split; auto. f_equal. lia.
Qed.

Lemma setDone_unconditional_witness :
  marks_done (lib 5 60) "never-reserved" "ok"
    (Redis (<[QUEUE_COUNT := Entry "1" (Some 60%positive)]> ∅) [] []).
Proof.
  apply (setDone_unconditional (lib 5 60) "never-reserved" "ok" _ [] 1).
  - discriminate.
  - discriminate.
  - reflexivity.
  - unfold safe, MAX_SAFE_INTEGER. lia.
Defined.

(** C10 fails as stated: under the request id QUEUE_COUNT the payload is
    overwritten by the counter, and under QUEUE_SIZE, on a store without
    a counter, by the configured size. *)
Lemma marks_done_counterexample :
  let q := lib 5 60 in
  ~ marks_done q "QUEUE_COUNT" "7" (run (initialize q) (store ∅)) /\
  persisted "QUEUE_COUNT" (run (setDone q "QUEUE_COUNT" "7") (run (initialize q) (store ∅)))
  = Some "6" /\
  ~ marks_done q "QUEUE_SIZE" "7" (store ∅).
Proof.
  repeat split.
  - unfold marks_done. intros (_ & H & _). vm_compute in H. discriminate H.
  - unfold marks_done. intros (_ & H & _). vm_compute in H. discriminate H.
Qed.

(** ** The counter invariant (C4) *)

(** C4, as the code has it: under any schedule of store failures, every
    state reached from [initialize] by public operations whose request ids
    differ from the counter key QUEUE_COUNT, with time passing in between,
    holds a count that is a natural number; on a store that answers,
    [up1Count] raises a count within the safe integers by one,
    [down1Count] lowers it by one but not below 0, and from a count of 0
    both [setDone] and [removeRequest] leave 0. *)
Theorem inFlight_never_negative q :
  (forall r, reachable q (fun id => id <> QUEUE_COUNT) r -> count_ok r) /\
  (forall d l n, inFlight (Redis d [] l) = Fin n -> safe n ->
     inFlight (run (up1Count q) (Redis d [] l)) = Fin (n + 1) /\
     inFlight (run (down1Count q) (Redis d [] l)) = Fin (Z.max 0 (n - 1))) /\
  (forall d l id payload, inFlight (Redis d [] l) = Fin 0 -> id <> QUEUE_COUNT ->
     inFlight (run (setDone q id payload) (Redis d [] l)) = Fin 0 /\
     inFlight (run (removeRequest q id) (Redis d [] l)) = Fin 0).
Proof.
  split; [exact (reachable_count_ok q)|]. split.
  - intros d l n Hn Hsafe. rewrite inFlight_value in Hn.
    destruct (up1Count_healthy q d l n Hn) as [l1 H1].
    destruct (down1Count_healthy q d l n Hn) as [l2 H2].
    unfold run. rewrite H1, H2. cbn [snd].
    now rewrite !inFlight_value, !with_count_value.
  - intros d l id payload Hn Hid. rewrite inFlight_value in Hn. split.
    + assert (Hn1 : ToNumber (getCount_value (<[id := Entry payload (expiry q)]> d)) = Fin 0).
      { unfold getCount_value in *. now lookups. }
      destruct (setDone_healthy q d l id payload 0 Hn1) as [l1 H1].
      unfold run. rewrite H1. cbn [snd].
      now rewrite inFlight_value, with_count_value.
    + assert (Hn1 : ToNumber (getCount_value (delete id d)) = Fin 0).
      { unfold getCount_value in *. now lookups. }
      destruct (d !! id) as [e|] eqn:He.
      * destruct (String.eqb_spec (value e) "pending") as [Hp|Hp];
          [|destruct (String.eqb_spec (value e) "") as [Hq|Hq]].
        -- destruct (removeRequest_falsy q d l id e 0 He (or_introl Hp) Hn1) as [l1 H1].
           unfold run. rewrite H1. cbn [snd].
           now rewrite inFlight_value, with_count_value.
        -- destruct (removeRequest_falsy q d l id e 0 He (or_intror Hq) Hn1) as [l1 H1].
           unfold run. rewrite H1. cbn [snd].
           now rewrite inFlight_value, with_count_value.
        -- unfold run. rewrite (removeRequest_done q d l id e He Hp Hq). cbn [snd].
           now rewrite inFlight_value.
      * unfold run. rewrite (removeRequest_absent q d l id He). cbn [snd].
        now rewrite inFlight_value.
Qed.

Lemma inFlight_never_negative_witness :
  count_ok (run (perform (lib 5 60) (SetDone "a" "ok"))
              (run (initialize (lib 5 60)) (Redis ∅ [None; Some (RedisError "EPIPE")] []))).
Proof.
  apply (proj1 (inFlight_never_negative (lib 5 60))).
  apply reach_call.
  - apply reach_initialize.
  - intros id [= <-]. discriminate.
Defined.

(** C4 fails as stated: [setRequest] under the request id QUEUE_COUNT
    writes "pending" over the counter, which is no number at all. *)
Lemma count_ok_counterexample :
  let q := lib 5 60 in
  let r := run (perform q (SetRequest "QUEUE_COUNT")) (run (initialize q) (Redis ∅ [] [])) in
  reachable q (fun _ => True) r /\ inFlight r = NaN /\ ~ count_ok r.
Proof.
  split; [|split].
  - apply reach_call; [apply reach_initialize | auto].
  - reflexivity.
  - intros (n & Hn & _). vm_compute in Hn. discriminate Hn.
Qed.

(** ** Expiry of slots (C5) *)

Lemma down1Count_healthy_any q d l :
  exists v l', down1Count q (Redis d [] l)
               = (Resolved (JStr "OK"),
                  Redis (<[QUEUE_COUNT := Entry (ToString v) (expiry q)]>
                           (after_getCount q d)) [] l').
Proof.
  destruct (getCount_healthy q d l) as [l1 H1].
  unfold down1Count. rewrite (await_eq _ _ _ _ _ H1). simpl.
  unfold setCount. rewrite setRedis_healthy. eexists _, _. reflexivity.
Qed.

Lemma setDone_healthy_any q d l id payload :
  exists v l', setDone q id payload (Redis d [] l)
               = (Resolved (JStr "OK"),
                  Redis (<[QUEUE_COUNT := Entry (ToString v) (expiry q)]>
                           (after_getCount q (<[id := Entry payload (expiry q)]> d)))
                        [] l').
Proof.
  unfold setDone.
  rewrite (await_eq _ _ _ _ _ (setRedis_healthy q d l id (JStr payload))). simpl.
  unfold await at 1. simpl.
  destruct (down1Count_healthy_any q (<[id := Entry payload (expiry q)]> d)
              ((l ++ [Sent (SET id payload (expiry q)) None])
                 ++ [Emitted "setDone" id])%list) as (v & l2 & H2).
  rewrite (await_eq _ _ _ _ _ H2). simpl. eexists _, _. reflexivity.
Qed.

Lemma lookup_ttl_after_setDone q d id payload v :
  exists en,
    <[QUEUE_COUNT := Entry (ToString v) (expiry q)]>
      (after_getCount q (<[id := Entry payload (expiry q)]> d)) !! id = Some en
    /\ ttl en = expiry q.
Proof.
  destruct (decide (id = QUEUE_COUNT)) as [->|Hc].
  { rewrite lookup_insert_eq. eauto. }
  rewrite lookup_insert_ne by congruence. unfold after_getCount.
  destruct (<[id := Entry payload (expiry q)]> d !! QUEUE_COUNT).
  { rewrite lookup_insert_eq. eauto. }
  destruct (decide (id = QUEUE_SIZE)) as [->|Hs].
  { rewrite reset_size. eauto. }
  rewrite reset_other by assumption. rewrite lookup_insert_eq. eauto.
Qed.

Lemma expired_slot e id r en :
  db r !! id = Some en -> ttl en = Some e -> slot id (advance e r) = Absent.
Proof.
  intros Hid Ht. unfold slot, advance. simpl. rewrite lookup_omap, Hid. simpl.
  unfold age. rewrite Ht. now rewrite Pos.leb_refl.
Qed.

(** C5, as the code has it: in the copy under src/lib every slot write,
    by [setRequest] or by [setDone], leaves the key with a time-to-live of
    [expiration] seconds, and once that time has passed the slot is absent;
    in the older copy the same writes carry no time-to-live and the slot
    stays however much time passes. *)
Theorem slot_writes_expire_in_lib size e id payload d l :
  (self_destructs (lib size e) id (run (setRequest (lib size e) id) (Redis d [] l)) /\
   self_destructs (lib size e) id (run (setDone (lib size e) id payload) (Redis d [] l))) /\
  (db (run (setRequest (part000 size) id) (Redis d [] l)) !! id
   = Some (Entry "pending" None) /\
   (exists en, db (run (setDone (part000 size) id payload) (Redis d [] l)) !! id = Some en
               /\ ttl en = None) /\
   forall dt, slot id (advance dt (run (setRequest (part000 size) id) (Redis d [] l)))
              = Pending).
Proof.
  split; [split|split; [|split]].
  - unfold self_destructs. simpl. rewrite lookup_insert_eq. split; [eauto|].
    eapply expired_slot; simpl; [apply lookup_insert_eq | reflexivity].
  - destruct (setDone_healthy_any (lib size e) d l id payload) as (v & l' & H).
    destruct (lookup_ttl_after_setDone (lib size e) d id payload v) as (en & Hen & Ht).
    unfold self_destructs, run. rewrite H. cbn [snd]. split; [eauto|].
    eapply expired_slot; [exact Hen | exact Ht].
  - simpl. apply lookup_insert_eq.
  - destruct (setDone_healthy_any (part000 size) d l id payload) as (v & l' & H).
    unfold run. rewrite H. cbn [snd db].
    apply (lookup_ttl_after_setDone (part000 size) d id payload v).
  - intros dt. unfold slot, advance. simpl. rewrite lookup_omap, lookup_insert_eq.
    reflexivity.
Qed.

(** C5 fails as stated: in the older copy a slot written by [setRequest]
    has no time-to-live and is still pending after any length of time. *)
Lemma self_destructs_counterexample :
  let q := part000 5 in
  let r := run (setRequest q "a") (run (initialize q) (store ∅)) in
  db r !! "a" = Some (Entry "pending" None) /\
  (forall dt, slot "a" (advance dt r) = Pending) /\
  ~ self_destructs q "a" r.
Proof.
  split; [reflexivity|]. split.
  - intros dt. vm_compute. reflexivity.
  - intros [(en & Hen & Ht) _]. vm_compute in Hen. injection Hen as <-. discriminate Ht.
Qed.

(** ** The two copies (C6) *)

(** C6, as the code has it: from the same keyspace (up to expiry) and under
    the same schedule of store failures, [initialize] followed by any
    sequence of public operations settles every promise the same way in
    both copies and leaves the same keys with the same values; the copy
    under src/lib attaches its expiry to every write and the older copy
    none, so the persisted states agree once expiry is forgotten.  No time
    passes during the sequence. *)
Theorem copies_agree_up_to_expiry size e cs r :
  let new := lib size e in
  let old := part000 size in
  result (initialize old) (forget r) = result (initialize new) r /\
  fst (perform_all old cs (run (initialize old) (forget r)))
  = fst (perform_all new cs (run (initialize new) r)) /\
  snd (perform_all old cs (run (initialize old) (forget r)))
  = forget (snd (perform_all new cs (run (initialize new) r))).
Proof.
  intros new old. subst new old. unfold result, run.
  rewrite (initialize_simulates size e r). cbn [fst snd].
  split; [reflexivity|].
  rewrite (perform_all_simulates size e cs). cbn [fst snd]. auto.
Qed.

(** C6 fails as stated: the persisted states differ in the expiry of every
    key, and once that time has passed the results differ too. *)
Lemma same_behaviour_counterexample :
  ~ same_behaviour 5 60 [SetRequest "a"] (store ∅) /\
  (let new := lib 5 60 in
   let old := part000 5 in
   result (checkDone "a")
     (advance 60 (run (setRequest new "a") (run (initialize new) (store ∅))))
   = Resolved JNull /\
   result (checkDone "a")
     (advance 60 (run (setRequest old "a") (run (initialize old) (store ∅))))
   = Resolved (JBool false)).
Proof.
  split.
  - unfold same_behaviour. intros H.
    apply (f_equal (fun x => ttl <$> db (snd x) !! "a")) in H.
    vm_compute in H. discriminate H.
  - vm_compute. split; reflexivity.
Qed.

(** ** Expiry of the counter state (C9) *)

(** C9: in the copy under src/lib, [setSize] and [setCount] leave their
    key with a time-to-live of [expiration] seconds, like every other
    write; so in every reachable state the whole keyspace is gone once
    [expiration] seconds have passed without a write, and on a store that
    answers the next [getCount] resolves to 0 and the next [getSize] to the
    configured size, each writing count 0 and the configured size afresh,
    whatever count was persisted before; already when QUEUE_SIZE alone has
    expired, [getSize] puts the count back to 0. *)
Theorem counter_state_expires size e :
  let q := lib size e in
  (forall d l v,
     db (run (setSize q v) (Redis d [] l)) !! QUEUE_SIZE
     = Some (Entry (ToString v) (Some e)) /\
     db (run (setCount q v) (Redis d [] l)) !! QUEUE_COUNT
     = Some (Entry (ToString v) (Some e))) /\
  (forall r, reachable q (fun _ => True) r -> faults r = [] ->
     let r' := advance e r in
     db r' = ∅ /\
     result (getCount q) r' = Resolved (JNum (Fin 0)) /\
     result (getSize q) r' = Resolved (JNum (Fin size)) /\
     db (run (getCount q) r') = reset q ∅ /\
     db (run (getSize q) r') = reset q ∅ /\
     inFlight (run (getCount q) r') = Fin 0 /\
     inFlight (run (getSize q) r') = Fin 0) /\
  (forall d l, d !! QUEUE_SIZE = None ->
     inFlight (run (getSize q) (Redis d [] l)) = Fin 0).
Proof.
  intros q. split; [|split].
  - intros d l v. simpl. now rewrite !lookup_insert_eq.
  - intros r Hr Hf r'.
    assert (Hdb : db r' = ∅).
    { simpl. apply expired_all. now apply (reachable_expires_within size e). }
    destruct r as [d fs l]. simpl in Hf, Hdb. subst fs.
    unfold r', advance. cbn [db faults log]. rewrite Hdb.
    destruct (getCount_healthy q ∅ l) as [l1 H1].
    destruct (getSize_healthy q ∅ l) as [l2 H2].
    unfold result, run. rewrite H1, H2. cbn [fst snd db].
    unfold getCount_value, getSize_value, after_getCount, after_getSize.
    rewrite !lookup_empty. rewrite !inFlight_value.
    unfold getCount_value. rewrite reset_count. repeat split.
  - intros d l Hs. destruct (getSize_healthy q d l) as [l1 H1].
    unfold run. rewrite H1. cbn [snd]. rewrite inFlight_value.
    unfold after_getSize, getCount_value. now rewrite Hs, reset_count.
Qed.

Lemma counter_state_expires_witness :
  inFlight (run (addRequest (lib 5 60)) (run (initialize (lib 5 60)) (Redis ∅ [] [])))
  = Fin 1 /\
  result (getCount (lib 5 60))
    (advance 60 (run (perform (lib 5 60) AddRequest)
                   (run (initialize (lib 5 60)) (Redis ∅ [] []))))
  = Resolved (JNum (Fin 0)).
Proof.
  split; [reflexivity|].
  apply (proj1 (proj2 (counter_state_expires 5 60))).
  - apply reach_call; [apply reach_initialize | discriminate].
  - reflexivity.
Defined.

(** A day in the life of the counter, with [expiration] 60: QUEUE_SIZE is
    written by [initialize] only, QUEUE_COUNT by every reservation.  Thirty
    seconds after a reservation the size has expired, and the admission
    check of the next [addRequest] starts the count again from 0. *)
Example reservation_forgotten :
  let q := lib 5 60 in
  let r1 := run (addRequest q) (advance 30 (run (initialize q) (store ∅))) in
  let r2 := advance 30 r1 in
  inFlight r1 = Fin 1 /\
  persisted QUEUE_SIZE r2 = None /\ persisted QUEUE_COUNT r2 = Some "1" /\
  result (addRequest q) r2 = Resolved (JStr "OK") /\
  inFlight (run (addRequest q) r2) = Fin 1.
Proof. vm_compute. repeat split. Qed.

(** * Further properties of the class *)

(** ** Starting a process: [initialize] *)

Lemma initialize_healthy q d l :
  exists l', initialize q (Redis d [] l)
             = (Resolved tt,
                Redis (if js_neq (getSize_value q d) (JNum (Fin (static_size q)))
                       then reset q (after_getSize q d) else after_getSize q d)
                      [] l').
Proof.
  destruct (getSize_healthy q d l) as [l1 H1].
  unfold initialize. rewrite (await_eq _ _ _ _ _ H1). cbn [resume].
  destruct (js_neq (getSize_value q d) (JNum (Fin (static_size q)))).
  - unfold when. rewrite (await_eq _ _ _ _ _ (initializeRedis_healthy q _ l1)).
    eexists. reflexivity.
  - eexists. reflexivity.
Qed.

Lemma js_neq_persisted s k size :
  StringToNumber s = Fin k ->
  js_neq (JStr s) (JNum (Fin size)) = negb (k =? size).
Proof. intros H. unfold js_neq, number_eqb. cbn [ToNumber]. now rewrite H. Qed.

Lemma initialize_skip q d l e :
  d !! QUEUE_SIZE = Some e ->
  StringToNumber (value e) = Fin (static_size q) ->
  initialize q (Redis d [] l)
  = (Resolved tt, Redis d [] (l ++ [Sent (GET QUEUE_SIZE) None])).
Proof.
  intros Hs Hn. unfold initialize.
  assert (H1 : getSize q (Redis d [] l)
               = (Resolved (JStr (value e)),
                  Redis d [] (l ++ [Sent (GET QUEUE_SIZE) None]))).
  { run_async. now rewrite Hs. }
  rewrite (await_eq _ _ _ _ _ H1). cbn [resume].
  rewrite (js_neq_persisted _ _ _ Hn), Z.eqb_refl. reflexivity.
Qed.

(** X1: when the persisted size spells the configured size, [initialize]
    sends its one read and nothing else: the keyspace, the count of a
    running system included, is left as it is. *)
Theorem initialize_skips_when_configured q d l e :
  d !! QUEUE_SIZE = Some e ->
  StringToNumber (value e) = Fin (static_size q) ->
  initialize q (Redis d [] l)
  = (Resolved tt, Redis d [] (l ++ [Sent (GET QUEUE_SIZE) None])) /\
  inFlight (run (initialize q) (Redis d [] l)) = inFlight (Redis d [] l).
Proof.
  intros Hs Hn. unfold run. rewrite (initialize_skip q d l e Hs Hn).
  split; reflexivity.
Qed.

Lemma initialize_skips_when_configured_witness :
  initialize (lib 5 60)
    (Redis (<[QUEUE_SIZE := Entry "5" (Some 7%positive)]>
              (<[QUEUE_COUNT := Entry "3" (Some 60%positive)]> ∅)) [] [])
  = (Resolved tt,
     Redis (<[QUEUE_SIZE := Entry "5" (Some 7%positive)]>
              (<[QUEUE_COUNT := Entry "3" (Some 60%positive)]> ∅)) []
           [Sent (GET QUEUE_SIZE) None]).
Proof.
  refine (proj1 (initialize_skips_when_configured
                   (lib 5 60) _ [] (Entry "5" (Some 7%positive)) _ _)).
  - reflexivity.
  - reflexivity.
Defined.

(** X2: for a configured size within the safe integers, when QUEUE_SIZE is
    absent, or spells a safe integer other than the configured size,
    [initialize] resolves and leaves the keyspace of [initializeRedis]: the
    configured size and a count of 0, whatever count was persisted. *)
Theorem initialize_reconfigures q d l :
  safe (static_size q) ->
  (d !! QUEUE_SIZE = None \/
   exists e k, d !! QUEUE_SIZE = Some e /\ StringToNumber (value e) = Fin k
               /\ safe k /\ k <> static_size q) ->
  result (initialize q) (Redis d [] l) = Resolved tt /\
  db (run (initialize q) (Redis d [] l)) = reset q d /\
  inFlight (run (initialize q) (Redis d [] l)) = Fin 0 /\
  persisted QUEUE_SIZE (run (initialize q) (Redis d [] l))
  = Some (NumberToString (Fin (static_size q))).
Proof.
  intros Hsize H. destruct (initialize_healthy q d l) as [l' Hi].
  unfold result, run. rewrite Hi. cbn [fst snd].
  assert (Hdb : (if js_neq (getSize_value q d) (JNum (Fin (static_size q)))
                 then reset q (after_getSize q d) else after_getSize q d) = reset q d).
  { unfold getSize_value, after_getSize.
    destruct H as [Hs | (e & k & Hs & Hk & Hsafe & Hne)]; rewrite Hs.
    - unfold js_neq, number_eqb. cbn [ToNumber]. now rewrite Z.eqb_refl.
    - rewrite (js_neq_persisted _ _ _ Hk).
      destruct (Z.eqb_spec k (static_size q)); [contradiction | reflexivity]. }
  rewrite Hdb. unfold inFlight, persisted. cbn [db].
  rewrite reset_count, reset_size. auto.
Qed.

Lemma initialize_reconfigures_witness :
  db (run (initialize (lib 5 60))
        (Redis (<[QUEUE_SIZE := Entry "3" None]> (<[QUEUE_COUNT := Entry "2" None]> ∅)) [] []))
  = reset (lib 5 60) (<[QUEUE_SIZE := Entry "3" None]> (<[QUEUE_COUNT := Entry "2" None]> ∅)).
Proof.
  apply (initialize_reconfigures (lib 5 60) _ []).
  - unfold safe, MAX_SAFE_INTEGER. cbn [static_size lib]. lia.
  - right. exists (Entry "3" None), 3.
    split; [reflexivity|]. split; [reflexivity|].
    split; [unfold safe, MAX_SAFE_INTEGER; lia | discriminate].
Defined.

(** X3: [initialize] is idempotent on a store that answers: run again on
    the state it left, it sends one read and changes nothing. *)
Theorem initialize_idempotent q d l :
  (d !! QUEUE_SIZE = None \/
   exists e k, d !! QUEUE_SIZE = Some e /\ StringToNumber (value e) = Fin k) ->
  let r1 := run (initialize q) (Redis d [] l) in
  initialize q r1
  = (Resolved tt, Redis (db r1) [] (log r1 ++ [Sent (GET QUEUE_SIZE) None])).
Proof.
  intros H r1.
  assert (Hr1 : exists d1 l1 e1, r1 = Redis d1 [] l1 /\ d1 !! QUEUE_SIZE = Some e1
                  /\ StringToNumber (value e1) = Fin (static_size q)).
  { destruct (initialize_healthy q d l) as [l' Hi]. unfold r1, run. rewrite Hi.
    cbn [snd]. unfold getSize_value, after_getSize.
    destruct H as [Hs | (e & k & Hs & Hk)]; rewrite Hs.
    - unfold js_neq, number_eqb. cbn [ToNumber]. rewrite Z.eqb_refl. cbn [negb].
      eexists _, _, _. split; [reflexivity|]. rewrite reset_size.
      split; [reflexivity|]. apply StringToNumber_NumberToString.
    - rewrite (js_neq_persisted _ _ _ Hk).
      destruct (Z.eqb_spec k (static_size q)) as [->|Hne]; cbn [negb].
      + eexists _, _, _. split; [reflexivity|]. eauto.
      + eexists _, _, _. split; [reflexivity|]. rewrite reset_size.
        split; [reflexivity|]. apply StringToNumber_NumberToString. }
  destruct Hr1 as (d1 & l1 & e1 & -> & Hs1 & Hn1). cbn [db log].
  now apply (initialize_skip q d1 l1 e1).
Qed.

Lemma initialize_idempotent_witness :
  initialize (lib 5 60) (run (initialize (lib 5 60)) (Redis ∅ [] []))
  = (Resolved tt,
     Redis (db (run (initialize (lib 5 60)) (Redis ∅ [] []))) []
           (log (run (initialize (lib 5 60)) (Redis ∅ [] []))
              ++ [Sent (GET QUEUE_SIZE) None])).
Proof.
  exact (initialize_idempotent (lib 5 60) ∅ [] (or_introl (lookup_empty QUEUE_SIZE))).
Defined.

(** ** The local emitter *)

Lemma emitted_app d fs l evs :
  emitted (Redis d fs (l ++ evs)) = (emitted (Redis d fs l) ++ omap emission evs)%list.
Proof. unfold emitted. simpl. apply omap_app. Qed.

Lemma silent_resolve {A} (a : A) : silent (resolve a).
Proof. intros r. reflexivity. Qed.

Lemma silent_reject {A} why : silent (A := A) (reject why).
Proof. intros r. reflexivity. Qed.

Lemma silent_send c : silent (send c).
Proof.
  intros [d fs l]. unfold send. simpl.
  destruct fs as [|[e|] fs]; simpl; rewrite emitted_app; simpl; apply app_nil_r.
Qed.

Lemma silent_resume {A B} (p : promise A) (k : A -> async B) :
  (forall a, silent (k a)) -> silent (resume p k).
Proof. intros Hk. destruct p; simpl; [apply Hk | apply silent_reject]. Qed.

Lemma silent_await {A B} (m : async A) (k : A -> async B) :
  silent m -> (forall a, silent (k a)) -> silent (await m k).
Proof.
  intros Hm Hk r. unfold await. specialize (Hm r).
  destruct (m r) as [p r1]. simpl in Hm. rewrite <- Hm. now apply silent_resume.
Qed.

Lemma silent_when {A} b (m : async A) : silent m -> silent (when b m).
Proof.
  intros Hm. unfold when. destruct b; [|apply silent_resolve].
  apply silent_await; [exact Hm|]. intros. apply silent_resolve.
Qed.

Lemma silent_promise_all {A B} (m1 : async A) (m2 : async B) :
  silent m1 -> silent m2 -> silent (promise_all m1 m2).
Proof.
  intros H1 H2 r. unfold promise_all. specialize (H1 r).
  destruct (m1 r) as [p1 r1]. specialize (H2 r1).
  destruct (m2 r1) as [p2 r2]. simpl in *. congruence.
Qed.

Lemma silent_promise_all_staged {A B C D}
    (m1 : async A) (k1 : A -> async C) (m2 : async B) (k2 : B -> async D) :
  silent m1 -> silent m2 -> (forall a, silent (k1 a)) -> (forall b, silent (k2 b)) ->
  silent (promise_all_staged m1 k1 m2 k2).
Proof.
  intros H1 H2 Hk1 Hk2 r. unfold promise_all_staged. specialize (H1 r).
  destruct (m1 r) as [p1 r1]. specialize (H2 r1).
  destruct (m2 r1) as [p2 r2].
  pose proof (silent_resume p1 k1 Hk1 r2) as H3.
  destruct (resume p1 k1 r2) as [c r3].
  pose proof (silent_resume p2 k2 Hk2 r3) as H4.
  destruct (resume p2 k2 r3) as [d r4]. simpl in *. congruence.
Qed.

Section Silent.
Variable q : AsyncApiQueue.

Lemma initializeRedis_silent : silent (initializeRedis q).
Proof. apply silent_promise_all; apply silent_send. Qed.

Lemma getCount_rest_silent v : silent (getCount_rest q v).
Proof.
  apply silent_await; [apply silent_when, initializeRedis_silent|].
  intros. apply silent_resolve.
Qed.

Lemma getSize_rest_silent v : silent (getSize_rest q v).
Proof.
  apply silent_await; [apply silent_when, initializeRedis_silent|].
  intros. apply silent_resolve.
Qed.

Lemma getCount_silent : silent (getCount q).
Proof. apply silent_await; [apply silent_send | apply getCount_rest_silent]. Qed.

Lemma getSize_silent : silent (getSize q).
Proof. apply silent_await; [apply silent_send | apply getSize_rest_silent]. Qed.

Lemma up1Count_silent : silent (up1Count q).
Proof. apply silent_await; [apply getCount_silent | intros; apply silent_send]. Qed.

Lemma down1Count_silent : silent (down1Count q).
Proof. apply silent_await; [apply getCount_silent | intros; apply silent_send]. Qed.

Lemma addRequest_silent : silent (addRequest q).
Proof.
  apply silent_await.
  - apply silent_await; [|intros; apply silent_resolve].
    apply silent_promise_all_staged;
      [apply silent_send | apply silent_send
      |apply getCount_rest_silent | apply getSize_rest_silent].
  - intros []; [apply silent_reject | apply up1Count_silent].
Qed.

Lemma checkDone_silent id : silent (checkDone id).
Proof. apply silent_await; [apply silent_send | intros; apply silent_resolve]. Qed.

Lemma removeRequest_silent id : silent (removeRequest q id).
Proof.
  apply silent_await; [apply checkDone_silent|]. intros isDone. unfold removeRequest_rest.
  destruct (negb (is_null isDone)); [|apply silent_resolve].
  apply silent_await; [apply silent_send|]. intros res.
  apply silent_await; [apply silent_when, down1Count_silent|].
  intros. apply silent_resolve.
Qed.

Lemma initialize_silent : silent (initialize q).
Proof.
  apply silent_await; [apply getSize_silent|]. intros.
  apply silent_when, initializeRedis_silent.
Qed.
End Silent.

(** X4: [setDone] emits "setDone" with the request id exactly once when its
    write of the slot went through, whether or not the counter is updated
    afterwards, and emits nothing when that write failed; no other
    operation, [initialize] included, emits anything. *)
Theorem setDone_emits_once q id response r :
  emitted (run (setDone q id response) r)
  = (emitted r ++ match faults r with
                  | Some _ :: _ => []
                  | _ => [("setDone", id)]
                  end)%list /\
  silent (initialize q) /\
  forall c, (forall id' p, c <> SetDone id' p) -> silent (perform q c).
Proof.
  split; [|split; [apply initialize_silent|]].
  - destruct r as [d fs l]. unfold run, setDone, await, setRedis, send. cbn [faults].
    destruct fs as [|[e|] fs]; cbn [fst snd resume reject emit db faults log tail].
    + pose proof (down1Count_silent q (Redis (exec (SET id (ToString (JStr response)) (expiry q)) d) []
                    ((l ++ [Sent (SET id (ToString (JStr response)) (expiry q)) None])
                       ++ [Emitted "setDone" id]))) as Hd.
      destruct (down1Count q _) as [p r2]. cbn [snd] in Hd.
      assert (Hs : emitted (snd (resume p (fun _ => resolve (JStr "OK")) r2)) = emitted r2)
        by (apply silent_resume; intros; apply silent_resolve).
      destruct (resume p _ r2) as [p3 r3]. cbn [snd] in *. rewrite Hs, Hd.
      rewrite !emitted_app. simpl. now rewrite app_nil_r.
    + rewrite emitted_app. reflexivity.
    + pose proof (down1Count_silent q (Redis (exec (SET id (ToString (JStr response)) (expiry q)) d) fs
                    ((l ++ [Sent (SET id (ToString (JStr response)) (expiry q)) None])
                       ++ [Emitted "setDone" id]))) as Hd.
      destruct (down1Count q _) as [p r2]. cbn [snd] in Hd.
      assert (Hs : emitted (snd (resume p (fun _ => resolve (JStr "OK")) r2)) = emitted r2)
        by (apply silent_resume; intros; apply silent_resolve).
      destruct (resume p _ r2) as [p3 r3]. cbn [snd] in *. rewrite Hs, Hd.
      rewrite !emitted_app. simpl. now rewrite app_nil_r.
  - intros c Hc. destruct c as [|k|k|k p|k| |]; simpl.
    + apply addRequest_silent.
    + apply silent_send.
    + apply checkDone_silent.
    + now destruct (Hc k p).
    + apply removeRequest_silent.
    + apply getSize_silent.
    + apply getCount_silent.
Qed.

Lemma setDone_emits_once_witness : silent (perform (lib 5 60) (RemoveRequest "a")).
Proof.
  apply (proj2 (proj2 (setDone_emits_once (lib 5 60) "a" "ok" (store ∅)))).
  discriminate.
Defined.

(** ** Failures in the middle of an operation *)

(** X5: nothing is rolled back.  When the slot write of [setDone] goes
    through and the read of the counter after it fails, [setDone] rejects
    with that error although the payload is persisted and the count is not
    lowered; when [removeRequest] has deleted a pending slot and the read of
    the counter fails, it rejects although the slot is gone and the count
    still includes it. *)
Theorem no_rollback q d l id response e fs :
  (result (setDone q id response) (Redis d (None :: Some e :: fs) l)
   = Rejected (StoreUnavailable e) /\
   db (run (setDone q id response) (Redis d (None :: Some e :: fs) l))
   = <[id := Entry response (expiry q)]> d) /\
  (forall en, d !! id = Some en -> value en = "pending" ->
     result (removeRequest q id) (Redis d (None :: None :: Some e :: fs) l)
     = Rejected (StoreUnavailable e) /\
     db (run (removeRequest q id) (Redis d (None :: None :: Some e :: fs) l))
     = delete id d).
Proof.
  split; [split; reflexivity|].
  intros en Hid Hp. unfold result, run. run_async.
  rewrite Hid, Hp. cbn. rewrite Hid. cbn. split; reflexivity.
Qed.

Lemma no_rollback_witness :
  result (removeRequest (lib 5 60) "a")
    (Redis (<["a" := Entry "pending" None]> ∅)
           (None :: None :: Some (RedisError "EPIPE") :: []) [])
  = Rejected (StoreUnavailable (RedisError "EPIPE")) /\
  db (run (removeRequest (lib 5 60) "a")
        (Redis (<["a" := Entry "pending" None]> ∅)
               (None :: None :: Some (RedisError "EPIPE") :: []) []))
  = delete "a" (<["a" := Entry "pending" None]> ∅).
Proof.
  apply (proj2 (no_rollback (lib 5 60) (<["a" := Entry "pending" None]> ∅) [] "a" "ok"
                  (RedisError "EPIPE") []) (Entry "pending" None)).
  - reflexivity.
  - reflexivity.
Defined.

(** ** Removing and cancelling *)

Lemma removeRequest_present q d l id en :
  d !! id = Some en ->
  exists d' l', removeRequest q id (Redis d [] l)
                = (Resolved (JNum (Fin 1)), Redis d' [] l') /\
    (d' = delete id d \/
     exists v, d' = <[QUEUE_COUNT := Entry (ToString v) (expiry q)]>
                      (after_getCount q (delete id d))).
Proof.
  intros H. unfold removeRequest, removeRequest_rest.
  rewrite (await_eq _ _ _ _ _ (checkDone_healthy d l id)). rewrite H.
  set (isDone := if String.eqb (value en) "pending" then JBool false else JStr (value en)).
  assert (Hnn : negb (is_null isDone) = true)
    by (unfold isDone; now destruct (String.eqb (value en) "pending")).
  cbn [resume]. rewrite Hnn.
  rewrite (await_eq _ _ _ _ _ (delRedis_healthy _ _ id)). rewrite H. cbn [resume].
  destruct (js_eq (JNum (Fin 1)) (JNum (Fin 1)) && negb (ToBoolean isDone)).
  - destruct (down1Count_healthy_any q (delete id d)
                ((l ++ [Sent (GET id) None]) ++ [Sent (DEL id) None])%list)
      as (v & l2 & H2).
    unfold when. rewrite (await_eq _ _ _ _ _ (await_eq _ _ _ _ _ H2)). cbn.
    eexists _, _. split; [reflexivity|]. right. eauto.
  - cbn. eexists _, _. split; [reflexivity|]. now left.
Qed.

Lemma removed q d l id :
  plain id ->
  exists v d' l', removeRequest q id (Redis d [] l) = (Resolved v, Redis d' [] l')
                  /\ d' !! id = None.
Proof.
  intros [Hc Hs]. destruct (d !! id) as [en|] eqn:Hid.
  - destruct (removeRequest_present q d l id en Hid) as (d' & l' & H & Hd).
    exists (JNum (Fin 1)), d', l'. split; [exact H|].
    destruct Hd as [-> | [v ->]].
    + apply lookup_delete_eq.
    + rewrite lookup_insert_ne by congruence.
      rewrite after_getCount_other by assumption. apply lookup_delete_eq.
  - exists (JNum (Fin 0)), d, (l ++ [Sent (GET id) None])%list.
    split; [now apply removeRequest_absent | exact Hid].
Qed.

(** X6: [removeRequest] is idempotent.  On a store that answers, for a
    request id other than the two counter keys and whatever the slot held,
    a second [removeRequest] resolves to 0 and leaves the keyspace, count
    included, as the first one left it. *)
Theorem removeRequest_twice q d l id :
  plain id ->
  let r1 := run (removeRequest q id) (Redis d [] l) in
  result (removeRequest q id) r1 = Resolved (JNum (Fin 0)) /\
  db (run (removeRequest q id) r1) = db r1 /\
  inFlight (run (removeRequest q id) r1) = inFlight r1.
Proof.
  intros Hid r1. destruct (removed q d l id Hid) as (v & d' & l' & H & Hnone).
  unfold r1, run, result. rewrite H. cbn [snd].
  rewrite (removeRequest_absent q d' l' id Hnone). cbn [fst snd db].
  repeat split.
Qed.

Lemma removeRequest_twice_witness :
  result (removeRequest (lib 5 60) "a")
    (run (removeRequest (lib 5 60) "a")
       (Redis (<["a" := Entry "pending" None]> ∅) [] []))
  = Resolved (JNum (Fin 0)).
Proof.
  apply (removeRequest_twice (lib 5 60) (<["a" := Entry "pending" None]> ∅) [] "a").
  split; discriminate.
Defined.

(** X7: a reservation that is cancelled gives its unit back.  On a store
    that answers and holds QUEUE_SIZE, with a count that is a natural
    number within the safe integers, after a successful [addRequest], [setRequest(id)] and
    [removeRequest(id)], for an id other than the counter keys, the slot is
    absent and the count is what it was before [addRequest]. *)
Theorem reserve_then_cancel q d l id n tok :
  plain id ->
  is_Some (d !! QUEUE_SIZE) ->
  inFlight (Redis d [] l) = Fin n -> 0 <= n -> safe n ->
  result (addRequest q) (Redis d [] l) = Resolved tok ->
  let r2 := run (setRequest q id) (run (addRequest q) (Redis d [] l)) in
  inFlight r2 = Fin (n + 1) /\
  result (removeRequest q id) r2 = Resolved (JNum (Fin 1)) /\
  slot id (run (removeRequest q id) r2) = Absent /\
  inFlight (run (removeRequest q id) r2) = Fin n.
Proof.
  intros [Hc Hs] [es Hsize] Hn H0 Hsafe Hres r2. rewrite inFlight_value in Hn.
  assert (Hk : ToNumber (getCount_value (after_isFullQueue q d)) = Fin n).
  { unfold after_isFullQueue. rewrite Hsize. unfold getCount_value in *.
    destruct (d !! QUEUE_COUNT) eqn:Hcount; [now rewrite Hcount|].
    now rewrite reset_count. }
  destruct (js_ge (getCount_value d) (getSize_value q d)) eqn:Hge.
  { destruct (addRequest_full q d l Hge) as [l' H]. unfold result in Hres.
    rewrite H in Hres. discriminate. }
  destruct (addRequest_accepted q d l n Hge Hk) as [l1 H1].
  pose proof (setRedis_healthy q (with_count q (n + 1) (after_isFullQueue q d)) l1
                id (JStr "pending")) as H2.
  cbn [ToString] in H2.
  assert (Hn' : ToNumber (getCount_value
                  (delete id (<[id := Entry "pending" (expiry q)]>
                                (with_count q (n + 1) (after_isFullQueue q d)))))
                = Fin (n + 1)).
  { unfold getCount_value, with_count. lookups. simpl.
    apply StringToNumber_NumberToString. }
  destruct (removeRequest_falsy q _ (l1 ++ [Sent (SET id "pending" (expiry q)) None])
              id (Entry "pending" (expiry q)) (n + 1)
              (lookup_insert_eq _ _ _) (or_introl eq_refl) Hn') as [l3 H3].
  unfold r2, run, result, setRequest. rewrite H1. cbn [fst snd]. rewrite H2.
  cbn [fst snd]. rewrite H3. cbn [fst snd].
  rewrite !inFlight_value, !with_count_value.
  split; [|split; [reflexivity|split]].
  - unfold getCount_value, with_count. lookups. simpl.
    apply StringToNumber_NumberToString.
  - unfold slot, with_count. cbn [db]. lookups.
    rewrite after_getCount_other by assumption. now lookups.
  - f_equal. lia.
Qed.

Lemma reserve_then_cancel_witness :
  inFlight (run (removeRequest (lib 5 60) "a")
              (run (setRequest (lib 5 60) "a")
                 (run (addRequest (lib 5 60))
                    (Redis (<[QUEUE_SIZE := Entry "5" None]>
                              (<[QUEUE_COUNT := Entry "2" None]> ∅)) [] []))))
  = Fin 2.
Proof.
  apply (reserve_then_cancel (lib 5 60) _ [] "a" 2 (JStr "OK")).
  - split; discriminate.
  - eexists. reflexivity.
  - reflexivity.
  - lia.
  - unfold safe, MAX_SAFE_INTEGER. lia.
  - reflexivity.
Defined.

(** ** The capacity key is written by initialization only *)

Section Configured.
Variable q : AsyncApiQueue.
Variable es : entry.

Lemma configured_set d key v :
  key <> QUEUE_SIZE -> configured es d ->
  configured es (<[key := Entry v (expiry q)]> d).
Proof.
  intros Hk [Hs Hc]. split; [now rewrite lookup_insert_ne by congruence|].
  destruct (decide (key = QUEUE_COUNT)) as [->|Hn].
  - rewrite lookup_insert_eq. eauto.
  - now rewrite lookup_insert_ne by congruence.
Qed.

Lemma configured_del d key : plain key -> configured es d -> configured es (delete key d).
Proof.
  intros [Hc Hs] [H1 H2]. split; now rewrite lookup_delete_ne by congruence.
Qed.

Lemma read_counter_key_configured key :
  key = QUEUE_COUNT \/ key = QUEUE_SIZE ->
  keeps (configured es) not_null (getRedis key).
Proof.
  intros Hk. apply keeps_send; simpl; [auto|].
  intros d [Hs [ec Hc]]. destruct Hk as [-> | ->]; rewrite ?Hs, ?Hc; reflexivity.
Qed.

Lemma read_configured key : keeps (configured es) anything (getRedis key).
Proof. apply keeps_send; unfold anything; simpl; auto. Qed.

Lemma write_configured key v :
  key <> QUEUE_SIZE -> keeps (configured es) anything (setRedis q key v).
Proof.
  intros Hk. apply keeps_send; unfold anything; simpl; auto using configured_set.
Qed.

Lemma getCount_rest_configured v :
  not_null v -> keeps (configured es) anything (getCount_rest q v).
Proof.
  intros Hv. unfold getCount_rest, when. rewrite Hv.
  eapply keeps_await; [now apply keeps_resolve with (F := anything)|].
  intros. now apply keeps_resolve.
Qed.

Lemma getSize_rest_configured v :
  not_null v -> keeps (configured es) anything (getSize_rest q v).
Proof.
  intros Hv. unfold getSize_rest, when. rewrite Hv.
  eapply keeps_await; [now apply keeps_resolve with (F := anything)|].
  intros. now apply keeps_resolve.
Qed.

Lemma getCount_configured : keeps (configured es) anything (getCount q).
Proof.
  eapply keeps_await; [apply read_counter_key_configured; now left|].
  apply getCount_rest_configured.
Qed.

Lemma getSize_configured : keeps (configured es) anything (getSize q).
Proof.
  eapply keeps_await; [apply read_counter_key_configured; now right|].
  apply getSize_rest_configured.
Qed.

Lemma up1Count_configured : keeps (configured es) anything (up1Count q).
Proof.
  eapply keeps_await; [apply getCount_configured|]. intros.
  apply write_configured. auto with queue.
Qed.

Lemma down1Count_configured : keeps (configured es) anything (down1Count q).
Proof.
  eapply keeps_await; [apply getCount_configured|]. intros.
  apply write_configured. auto with queue.
Qed.

Lemma addRequest_configured : keeps (configured es) anything (addRequest q).
Proof.
  eapply keeps_await with (F := anything).
  - eapply keeps_await; [|intros; now apply keeps_resolve].
    apply keeps_promise_all_staged
      with (F1 := not_null) (F2 := not_null) (G1 := anything) (G2 := anything).
    + apply read_counter_key_configured; now left.
    + apply read_counter_key_configured; now right.
    + apply getCount_rest_configured.
    + apply getSize_rest_configured.
  - intros [] _; [apply keeps_reject | apply up1Count_configured].
Qed.

Lemma perform_configured c :
  (forall id, request_id c = Some id -> plain id) ->
  keeps (configured es) anything (perform q c).
Proof.
  destruct c as [|k|k|k p|k| |]; simpl; intros Hid.
  - apply addRequest_configured.
  - apply write_configured. now apply Hid.
  - eapply keeps_await; [apply read_configured|]. intros. now apply keeps_resolve.
  - eapply keeps_await; [apply write_configured; now apply Hid|]. intros res _.
    eapply keeps_await; [apply keeps_emit|]. intros _ _.
    eapply keeps_await; [apply down1Count_configured|]. intros. now apply keeps_resolve.
  - eapply keeps_await.
    + eapply keeps_await; [apply read_configured|]. intros.
      now apply keeps_resolve with (F := anything).
    + intros isDone _. unfold removeRequest_rest.
  destruct (negb (is_null isDone)); [|now apply keeps_resolve].
      eapply keeps_await with (F := anything).
      * apply keeps_send; unfold anything; simpl; auto using configured_del.
      * intros res _.
        eapply keeps_await; [eapply keeps_when, down1Count_configured|].
        intros. now apply keeps_resolve.
  - apply getSize_configured.
  - apply getCount_configured.
Qed.
End Configured.

(** X8: while both counter keys are present, no public operation on a
    request id other than the counter keys writes QUEUE_SIZE, under any
    schedule of store failures: its value and its remaining time-to-live
    are untouched, so in src/lib the capacity expires [expiration] seconds
    after it was initialized however busy the queue is. *)
Theorem capacity_key_untouched q c r es :
  (forall id, request_id c = Some id -> plain id) ->
  db r !! QUEUE_SIZE = Some es ->
  is_Some (db r !! QUEUE_COUNT) ->
  db (run (perform q c) r) !! QUEUE_SIZE = Some es /\
  is_Some (db (run (perform q c) r) !! QUEUE_COUNT).
Proof.
  intros Hid Hs Hc. apply (perform_configured q es c Hid r). now split.
Qed.

Lemma capacity_key_untouched_witness :
  db (run (perform (lib 5 60) AddRequest)
        (Redis (<[QUEUE_SIZE := Entry "5" (Some 7%positive)]>
                  (<[QUEUE_COUNT := Entry "2" (Some 60%positive)]> ∅)) [] []))
    !! QUEUE_SIZE = Some (Entry "5" (Some 7%positive)).
Proof.
  apply (capacity_key_untouched (lib 5 60) AddRequest _ (Entry "5" (Some 7%positive))).
  - discriminate.
  - reflexivity.
  - eexists. reflexivity.
Defined.

(** ** The older copy never forgets *)

Lemma persistent_insert d key v : persistent d -> persistent (<[key := Entry v None]> d).
Proof.
  intros H k en. destruct (decide (key = k)) as [->|Hk].
  - rewrite lookup_insert_eq. now intros [= <-].
  - rewrite lookup_insert_ne by exact Hk. apply H.
Qed.

Lemma persistent_delete d key : persistent d -> persistent (delete key d).
Proof.
  intros H k en. destruct (decide (key = k)) as [->|Hk].
  - now rewrite lookup_delete_eq.
  - rewrite lookup_delete_ne by exact Hk. apply H.
Qed.

Lemma persistent_age d dt : persistent d -> omap (age dt) d = d.
Proof.
  intros H. apply map_eq. intros k. rewrite lookup_omap.
  destruct (d !! k) as [en|] eqn:Hk; simpl; [|reflexivity].
  unfold age. now rewrite (H k en Hk).
Qed.

Lemma reachable_persistent size r :
  reachable (part000 size) (fun _ => True) r -> persistent (db r).
Proof.
  induction 1 as [fs | r Hr IH | r c Hr IH _ | r dt Hr IH].
  - apply (initialize_closed (part000 size) persistent); simpl;
      auto using persistent_insert, persistent_delete.
    intros k en. now rewrite lookup_empty.
  - apply (initialize_closed (part000 size) persistent); simpl;
      auto using persistent_insert, persistent_delete.
  - apply (perform_closed (part000 size) persistent); simpl;
      auto using persistent_insert, persistent_delete.
  - simpl. now rewrite persistent_age.
Qed.

(** X9: in the older copy (src/unnamed/part_000) nothing ever expires: in
    every state reached from [initialize] on an empty store, under any
    schedule of store failures and for any request ids, the passage of any
    length of time leaves the keyspace as it is, so a slot or a count that
    is not removed explicitly stays for ever. *)
Theorem old_copy_never_expires size r dt :
  reachable (part000 size) (fun _ => True) r ->
  db (advance dt r) = db r /\
  forall id, result (checkDone id) (advance dt r) = result (checkDone id) r.
Proof.
  intros Hr. assert (Hdb : db (advance dt r) = db r).
  { simpl. apply persistent_age. now apply (reachable_persistent size). }
  split; [exact Hdb|]. intros id. destruct r as [d fs l]. simpl in Hdb.
  unfold result, advance, checkDone, await, getRedis, send. cbn [db faults log].
  rewrite Hdb. reflexivity.
Qed.

Lemma old_copy_never_expires_witness :
  db (advance 86400 (run (perform (part000 5) (SetRequest "a"))
                       (run (initialize (part000 5)) (Redis ∅ [] []))))
  = db (run (perform (part000 5) (SetRequest "a"))
          (run (initialize (part000 5)) (Redis ∅ [] []))).
Proof.
  apply (old_copy_never_expires 5).
  apply reach_call; [apply reach_initialize | auto].
Defined.

(** ** How long a slot lives *)

(** X10: in src/lib a slot lives for the [expiration] seconds that follow
    its last write.  On a store that answers, whatever the key held before
    and however old it was, [dt] seconds after [setRequest(id)] or
    [setDone(id, response)], for [dt] less than [expiration] and an id other
    than the counter keys, the written value is still there with
    [expiration - dt] seconds to live. *)
Theorem slot_lifetime size e id response d l dt :
  plain id ->
  (dt < e)%positive ->
  db (advance dt (run (setRequest (lib size e) id) (Redis d [] l))) !! id
  = Some (Entry "pending" (Some (e - dt)%positive)) /\
  db (advance dt (run (setDone (lib size e) id response) (Redis d [] l))) !! id
  = Some (Entry response (Some (e - dt)%positive)).
Proof.
  intros [Hc Hs] Hdt.
  assert (Hage : age dt (Entry "pending" (Some e)) = Some (Entry "pending" (Some (e - dt)%positive))
                 /\ age dt (Entry response (Some e)) = Some (Entry response (Some (e - dt)%positive))).
  { unfold age. simpl. destruct (Pos.leb_spec e dt); [lia | auto]. }
  destruct Hage as [Hp Hr]. split.
  - simpl. now rewrite lookup_omap, lookup_insert_eq.
  - destruct (setDone_healthy_any (lib size e) d l id response) as (v & l' & H).
    unfold run. rewrite H. cbn [snd advance db]. rewrite lookup_omap.
    rewrite lookup_insert_ne by congruence.
    rewrite after_getCount_other by assumption. now rewrite lookup_insert_eq.
Qed.

Lemma slot_lifetime_witness :
  db (advance 59 (run (setRequest (lib 5 60) "a")
                    (Redis (<["a" := Entry "old" (Some 1%positive)]> ∅) [] []))) !! "a"
  = Some (Entry "pending" (Some 1%positive)).
Proof.
  apply (slot_lifetime 5 60 "a" "ok" (<["a" := Entry "old" (Some 1%positive)]> ∅) [] 59).
  - split; discriminate.
  - reflexivity.
Defined.

(** ** Rejected reservations *)

(** X11: on a store that answers, a reservation rejected as over the limit
    has sent its two reads and nothing else when both counter keys were
    present; but when QUEUE_SIZE was absent and the persisted count was at
    or above the configured size, the rejected [addRequest] has also
    initialized the store, and the count it was rejected for is back to
    0. *)
Theorem rejected_addRequest q d l ec :
  d !! QUEUE_COUNT = Some ec ->
  (forall es, d !! QUEUE_SIZE = Some es ->
     js_ge (JStr (value ec)) (JStr (value es)) = true ->
     addRequest q (Redis d [] l)
     = (Rejected QueueFull,
        Redis d [] ((l ++ [Sent (GET QUEUE_COUNT) None]) ++ [Sent (GET QUEUE_SIZE) None]))) /\
  (forall n, d !! QUEUE_SIZE = None ->
     StringToNumber (value ec) = Fin n -> static_size q <= n ->
     result (addRequest q) (Redis d [] l) = Rejected QueueFull /\
     inFlight (run (addRequest q) (Redis d [] l)) = Fin 0).
Proof.
  intros Hc. split.
  - intros es Hs Hge.
    assert (H : isFullQueue q (Redis d [] l)
                = (Resolved (js_ge (JStr (value ec)) (JStr (value es))),
                   Redis d [] ((l ++ [Sent (GET QUEUE_COUNT) None])
                                 ++ [Sent (GET QUEUE_SIZE) None]))).
    { run_async. now rewrite Hc, Hs. }
    unfold addRequest. rewrite (await_eq _ _ _ _ _ H). cbn [resume].
    now rewrite Hge.
  - intros n Hs Hn Hle.
    assert (Hge : js_ge (getCount_value d) (getSize_value q d) = true).
    { unfold getCount_value, getSize_value. rewrite Hc, Hs.
      unfold js_ge. cbn [ToNumber]. rewrite Hn. now apply Z.leb_le. }
    destruct (addRequest_full q d l Hge) as [l' H].
    unfold result, run. rewrite H. cbn [fst snd]. split; [reflexivity|].
    rewrite inFlight_value. unfold after_isFullQueue. rewrite Hc, Hs.
    unfold getCount_value. now rewrite reset_count.
Qed.

Lemma rejected_addRequest_witness :
  result (addRequest (lib 5 60)) (Redis (<[QUEUE_COUNT := Entry "7" None]> ∅) [] [])
  = Rejected QueueFull /\
  inFlight (run (addRequest (lib 5 60)) (Redis (<[QUEUE_COUNT := Entry "7" None]> ∅) [] []))
  = Fin 0.
Proof.
  apply (proj2 (rejected_addRequest (lib 5 60) (<[QUEUE_COUNT := Entry "7" None]> ∅) []
                  (Entry "7" None) (lookup_insert_eq _ _ _)) 7).
  - reflexivity.
  - reflexivity.
  - simpl. lia.
Defined.

(** X12: a reservation that fails has not got as far as a write that went
    through.  While both counter keys are present, under any schedule of
    store failures, an [addRequest] that rejects has either sent reads
    only, and the keyspace is exactly as it was, or rejects with the error
    of its one write, the SET of QUEUE_COUNT, which is the last command it
    sent, after reads only. *)
Theorem addRequest_fails_before_or_at_its_write q d fs l ec es why :
  d !! QUEUE_COUNT = Some ec ->
  d !! QUEUE_SIZE = Some es ->
  result (addRequest q) (Redis d fs l) = Rejected why ->
  exists evs,
    log (run (addRequest q) (Redis d fs l)) = (l ++ evs)%list /\
    ((Forall is_read evs /\ db (run (addRequest q) (Redis d fs l)) = d) \/
     exists evs0 v e,
       evs = (evs0 ++ [Sent (SET QUEUE_COUNT v (expiry q)) (Some e)])%list /\
       Forall is_read evs0 /\ why = StoreUnavailable e).
Proof.
  intros Hc Hs.
  destruct fs as [|[e1|] [|[e2|] [|[e3|] [|[e4|] fs]]]];
    run_async; rewrite ?Hc, ?Hs; cbv [fst snd negb];
    destruct (js_ge (JStr (value ec)) (JStr (value es)));
    cbv [fst snd]; rewrite ?Hc; cbv [fst snd];
    intros Hrej; try discriminate Hrej.
  all: rewrite <- ?app_assoc; cbn [app].
  all: try solve [eexists; split; [reflexivity|]; left; split; [|reflexivity];
                  repeat (constructor; [exact I|]); constructor].
  all: eexists; split; [reflexivity|]; right;
       eexists [_; _; _], _, _; split; [reflexivity|];
       split; [repeat (constructor; [exact I|]); constructor | now injection Hrej as <-].
Qed.

Lemma addRequest_fails_before_or_at_its_write_witness :
  exists evs,
    log (run (addRequest (lib 5 60))
           (Redis (<[QUEUE_SIZE := Entry "5" None]> (<[QUEUE_COUNT := Entry "2" None]> ∅))
                  [None; None; None; Some (RedisError "EPIPE")] []))
    = ([] ++ evs)%list /\
    ((Forall is_read evs /\
      db (run (addRequest (lib 5 60))
            (Redis (<[QUEUE_SIZE := Entry "5" None]> (<[QUEUE_COUNT := Entry "2" None]> ∅))
                   [None; None; None; Some (RedisError "EPIPE")] []))
      = <[QUEUE_SIZE := Entry "5" None]> (<[QUEUE_COUNT := Entry "2" None]> ∅)) \/
     exists evs0 v e,
       evs = (evs0 ++ [Sent (SET QUEUE_COUNT v (expiry (lib 5 60))) (Some e)])%list /\
       Forall is_read evs0 /\ StoreUnavailable (RedisError "EPIPE") = StoreUnavailable e).
Proof.
  apply (addRequest_fails_before_or_at_its_write (lib 5 60) _ _ [] (Entry "2" None)
           (Entry "5" None) (StoreUnavailable (RedisError "EPIPE"))).
  - reflexivity.
  - reflexivity.
  - reflexivity.
Defined.

(** ** The capacity is respected *)

Section Capped.
Variable q : AsyncApiQueue.
Hypothesis single_digit : 0 <= static_size q <= 9.

Lemma capped_reset d : capped q (reset q d).
Proof.
  split; right.
  - exists 0, (expiry q). split; [lia|]. now rewrite reset_count.
  - exists (expiry q). apply reset_size.
Qed.

Lemma capped_insert d id e : plain id -> capped q d -> capped q (<[id := e]> d).
Proof.
  intros [Hc Hs] [H1 H2]. split; now rewrite lookup_insert_ne by congruence.
Qed.

Lemma capped_delete d id : plain id -> capped q d -> capped q (delete id d).
Proof.
  intros [Hc Hs] [H1 H2]. split; now rewrite lookup_delete_ne by congruence.
Qed.

Lemma capped_with_count d n :
  0 <= n <= static_size q -> capped q d -> capped q (with_count q n d).
Proof.
  intros Hn [H1 H2]. unfold with_count. split.
  - right. exists n, (expiry q). split; [exact Hn | apply lookup_insert_eq].
  - now rewrite lookup_insert_ne by auto with queue.
Qed.

Lemma capped_after_getCount d : capped q d -> capped q (after_getCount q d).
Proof. intros H. unfold after_getCount. destruct (d !! QUEUE_COUNT); auto using capped_reset. Qed.

Lemma capped_after_getSize d : capped q d -> capped q (after_getSize q d).
Proof. intros H. unfold after_getSize. destruct (d !! QUEUE_SIZE); auto using capped_reset. Qed.

Lemma capped_after_isFullQueue d : capped q d -> capped q (after_isFullQueue q d).
Proof.
  intros H. unfold after_isFullQueue.
  destruct (d !! QUEUE_COUNT); [destruct (d !! QUEUE_SIZE)|]; auto using capped_reset.
Qed.

Lemma capped_count d :
  capped q d -> exists n, ToNumber (getCount_value d) = Fin n /\ 0 <= n <= static_size q.
Proof.
  intros [[Hc | (n & ex & Hn & Hc)] _]; unfold getCount_value; rewrite Hc.
  - exists 0. split; [reflexivity | lia].
  - exists n. split; [apply StringToNumber_NumberToString | exact Hn].
Qed.

Lemma capped_age d dt : capped q d -> capped q (omap (age dt) d).
Proof.
  assert (Hage : forall k v ex, d !! k = Some (Entry v ex) ->
            omap (age dt) d !! k = None \/ exists ex', omap (age dt) d !! k = Some (Entry v ex')).
  { intros k v ex Hk. rewrite lookup_omap, Hk. simpl. unfold age. simpl.
    destruct ex as [t|]; [destruct (t <=? dt)%positive|]; eauto. }
  intros [H1 H2]. split.
  - destruct H1 as [Hc | (n & ex & Hn & Hc)].
    + left. now rewrite lookup_omap, Hc.
    + destruct (Hage _ _ _ Hc) as [? | [ex' ?]]; [now left | right; eauto].
  - destruct H2 as [Hs | (ex & Hs)].
    + left. now rewrite lookup_omap, Hs.
    + destruct (Hage _ _ _ Hs) as [? | [ex' ?]]; [now left | right; eauto].
Qed.

(** Below the limit the admission test leaves room for one more. *)
Lemma capped_room d :
  capped q d ->
  js_ge (getCount_value d) (getSize_value q d) = false ->
  exists n, ToNumber (getCount_value (after_isFullQueue q d)) = Fin n
            /\ 0 <= n < static_size q.
Proof.
  intros [H1 H2]. unfold getCount_value, getSize_value, after_isFullQueue.
  destruct H1 as [Hc | (n & exc & Hn & Hc)]; rewrite Hc;
    destruct H2 as [Hs | (exs & Hs)]; rewrite Hs; rewrite ?reset_count; cbn [value].
  - unfold js_ge. cbn [ToNumber]. intros H%Z.leb_gt.
    exists 0. split; [reflexivity | lia].
  - unfold js_ge. cbn [ToNumber]. rewrite StringToNumber_NumberToString.
    intros H%Z.leb_gt. exists 0. split; [reflexivity | lia].
  - unfold js_ge. cbn [ToNumber]. rewrite StringToNumber_NumberToString.
    intros H%Z.leb_gt. exists 0. split; [reflexivity | lia].
  - rewrite single_digits_compare by lia. intros H%Z.leb_gt.
    exists n. split; [rewrite Hc; apply StringToNumber_NumberToString | lia].
Qed.

Lemma perform_capped c d l :
  (forall id, request_id c = Some id -> plain id) ->
  capped q d ->
  exists d' l', run (perform q c) (Redis d [] l) = Redis d' [] l' /\ capped q d'.
Proof.
  intros Hid Hd. unfold run. destruct c as [|k|k|k p|k| |]; cbn [perform].
  - destruct (js_ge (getCount_value d) (getSize_value q d)) eqn:Hge.
    + destruct (addRequest_full q d l Hge) as [l' ->]. cbn [snd].
      eauto using capped_after_isFullQueue.
    + destruct (capped_room d Hd Hge) as (n & Hn & Hlt).
      destruct (addRequest_accepted q d l n Hge Hn) as [l' ->]. cbn [snd].
      eexists _, _. split; [reflexivity|].
      apply capped_with_count; [lia | now apply capped_after_isFullQueue].
  - unfold setRequest. rewrite setRedis_healthy. cbn [snd].
    eexists _, _. split; [reflexivity|]. apply capped_insert; auto.
  - rewrite checkDone_healthy. cbn [snd]. eauto.
  - assert (Hk : plain k) by auto.
    assert (Hd1 : capped q (<[k := Entry p (expiry q)]> d)) by now apply capped_insert.
    destruct (capped_count _ Hd1) as (n & Hn & Hle).
    destruct (setDone_healthy q d l k p n Hn) as [l' ->]. cbn [snd].
    eexists _, _. split; [reflexivity|].
    apply capped_with_count; [lia | now apply capped_after_getCount].
  - assert (Hk : plain k) by auto.
    destruct (d !! k) as [en|] eqn:Hen.
    + assert (Hd1 : capped q (delete k d)) by now apply capped_delete.
      destruct (capped_count _ Hd1) as (n & Hn & Hle).
      destruct (String.eqb_spec (value en) "pending") as [Hp|Hp];
        [|destruct (String.eqb_spec (value en) "") as [He|He]].
      * destruct (removeRequest_falsy q d l k en n Hen (or_introl Hp) Hn) as [l' ->].
        cbn [snd]. eexists _, _. split; [reflexivity|].
        apply capped_with_count; [lia | now apply capped_after_getCount].
      * destruct (removeRequest_falsy q d l k en n Hen (or_intror He) Hn) as [l' ->].
        cbn [snd]. eexists _, _. split; [reflexivity|].
        apply capped_with_count; [lia | now apply capped_after_getCount].
      * rewrite (removeRequest_done q d l k en Hen Hp He). cbn [snd]. eauto.
    + rewrite (removeRequest_absent q d l k Hen). cbn [snd]. eauto.
  - destruct (getSize_healthy q d l) as [l' ->]. cbn [snd].
    eauto using capped_after_getSize.
  - destruct (getCount_healthy q d l) as [l' ->]. cbn [snd].
    eauto using capped_after_getCount.
Qed.

Lemma take_capped s d l :
  plain_step s -> capped q d ->
  exists d' l', take q (Redis d [] l) s = Redis d' [] l' /\ capped q d'.
Proof.
  intros Hs Hd. destruct s as [c|dt|]; cbn [take].
  - now apply perform_capped.
  - unfold advance. cbn [db faults log]. eauto using capped_age.
  - destruct (initialize_healthy q d l) as [l' H]. unfold run. rewrite H. cbn [snd].
    eexists _, _. split; [reflexivity|].
    destruct (js_neq _ _); auto using capped_reset, capped_after_getSize.
Qed.

Lemma steps_capped steps : forall d l,
  Forall plain_step steps -> capped q d ->
  exists d' l', fold_left (take q) steps (Redis d [] l) = Redis d' [] l' /\ capped q d'.
Proof.
  induction steps as [|s steps IH]; intros d l Hs Hd; cbn [fold_left].
  - eauto.
  - inversion Hs as [|? ? Hs1 Hs2]; subst.
    destruct (take_capped s d l Hs1 Hd) as (d1 & l1 & -> & Hd1).
    now apply IH.
Qed.
End Capped.

(** X13: with a configured size of a single digit the capacity is
    respected.  In the life of an instance on a store that answers, from
    [initialize] on an empty store through any public operations on
    request ids other than the counter keys, any waiting and any restart,
    the in-flight count is a number between 0 and the configured size. *)
Theorem capacity_respected q steps :
  0 <= static_size q <= 9 ->
  Forall plain_step steps ->
  exists n, inFlight (session q steps) = Fin n /\ 0 <= n <= static_size q.
Proof.
  intros Hq Hs. unfold session.
  assert (H0 : capped q ∅) by (split; left; apply lookup_empty).
  destruct (take_capped q Hq Restart ∅ [] I H0) as (d0 & l0 & E0 & Hd0).
  cbn [take] in E0. unfold store. rewrite E0.
  destruct (steps_capped q Hq steps d0 l0 Hs Hd0) as (d' & l' & -> & Hd').
  rewrite inFlight_value. now apply capped_count.
Qed.

Lemma capacity_respected_witness :
  exists n,
    inFlight (session (lib 2 60)
                [Call AddRequest; Call AddRequest; Call AddRequest; Wait 30;
                 Call (SetRequest "a"); Call (SetDone "a" "ok"); Restart;
                 Call AddRequest; Call (RemoveRequest "a")]) = Fin n
    /\ 0 <= n <= static_size (lib 2 60).
Proof.
  refine (capacity_respected (lib 2 60) _ _ _).
  - cbn [static_size lib]. lia.
  - repeat match goal with
           | |- Forall _ (_ :: _) => constructor
           | |- Forall _ [] => constructor
           end;
      cbn [plain_step request_id]; try exact I;
      intros id H; inversion H; subst; split; discriminate.
Defined.

(** ** An initialization that fails half way *)

(** X14: [initializeRedis] sends its two writes together.  When QUEUE_SIZE is
    absent and the write of the count fails while the write of the size goes
    through, [initialize] rejects with that error and leaves the configured
    size behind; the next [initialize] then finds the size it expects and
    skips the reset, so the count that was there before stays in force. *)
Theorem half_initialized q d l e :
  d !! QUEUE_SIZE = None ->
  let r0 := Redis d [None; Some e] l in
  let r1 := run (initialize q) r0 in
  result (initialize q) r0 = Rejected (StoreUnavailable e) /\
  db r1 = <[QUEUE_SIZE := Entry (NumberToString (Fin (static_size q))) (expiry q)]> d /\
  faults r1 = [] /\
  result (initialize q) r1 = Resolved tt /\
  db (run (initialize q) r1) = db r1 /\
  inFlight (run (initialize q) r1) = inFlight r0.
Proof.
  intros Hs r0 r1.
  assert (H1 : initialize q r0
               = (Rejected (StoreUnavailable e),
                  Redis (<[QUEUE_SIZE := Entry (NumberToString (Fin (static_size q)))
                                               (expiry q)]> d) []
                        (((l ++ [Sent (GET QUEUE_SIZE) None])
                            ++ [Sent (SET QUEUE_COUNT "0" (expiry q)) (Some e)])
                           ++ [Sent (SET QUEUE_SIZE (NumberToString (Fin (static_size q)))
                                         (expiry q)) None]))).
  { subst r0. run_async. rewrite Hs. reflexivity. }
  assert (E1 : r1 = snd (initialize q r0)) by reflexivity.
  rewrite H1 in E1. cbn [snd] in E1.
  unfold result. rewrite H1. cbn [fst]. split; [reflexivity|].
  rewrite E1. cbn [db faults]. split; [reflexivity|]. split; [reflexivity|].
  unfold run.
  rewrite (initialize_skip q _ _
             (Entry (NumberToString (Fin (static_size q))) (expiry q))
             (lookup_insert_eq _ _ _) (StringToNumber_NumberToString _)).
  cbn [fst snd db]. split; [reflexivity|]. split; [reflexivity|].
  subst r0. unfold inFlight. cbn [db].
  now rewrite lookup_insert_ne by auto with queue.
Qed.

Lemma half_initialized_witness :
  inFlight (run (initialize (lib 5 60))
              (run (initialize (lib 5 60))
                 (Redis (<[QUEUE_COUNT := Entry "7" (Some 9%positive)]> ∅)
                        [None; Some (RedisError "READONLY")] [])))
  = inFlight (Redis (<[QUEUE_COUNT := Entry "7" (Some 9%positive)]> ∅)
                    [None; Some (RedisError "READONLY")] []).
Proof.
  refine (proj2 (proj2 (proj2 (proj2 (proj2
            (half_initialized (lib 5 60)
               (<[QUEUE_COUNT := Entry "7" (Some 9%positive)]> ∅) []
               (RedisError "READONLY") _)))))).
  rewrite lookup_insert_ne by auto with queue. apply lookup_empty.
Defined.

(** ** Writing and reading the counters *)

(** X15: what [setCount] and [setSize] are given comes back from [getCount]
    and [getSize] as the string Redis keeps, not as the value written: a
    safe integer [n] comes back as the string of its digits, whose number is
    [n].  The read back writes nothing. *)
Theorem counters_read_back_as_strings q d l n :
  safe n ->
  result (do! setCount q (JNum (Fin n)) in getCount q) (Redis d [] l)
  = Resolved (JStr (NumberToString (Fin n))) /\
  result (do! setSize q (JNum (Fin n)) in getSize q) (Redis d [] l)
  = Resolved (JStr (NumberToString (Fin n))) /\
  ToNumber (JStr (NumberToString (Fin n))) = Fin n /\
  JStr (NumberToString (Fin n)) <> JNum (Fin n) /\
  db (run (do! setCount q (JNum (Fin n)) in getCount q) (Redis d [] l))
  = <[QUEUE_COUNT := Entry (NumberToString (Fin n)) (expiry q)]> d /\
  db (run (do! setSize q (JNum (Fin n)) in getSize q) (Redis d [] l))
  = <[QUEUE_SIZE := Entry (NumberToString (Fin n)) (expiry q)]> d.
Proof.
  intros Hsafe.
  assert (Hc : (do! setCount q (JNum (Fin n)) in getCount q) (Redis d [] l)
               = (Resolved (JStr (NumberToString (Fin n))),
                  Redis (<[QUEUE_COUNT := Entry (NumberToString (Fin n)) (expiry q)]> d) []
                        ((l ++ [Sent (SET QUEUE_COUNT (NumberToString (Fin n)) (expiry q)) None])
                           ++ [Sent (GET QUEUE_COUNT) None]))).
  { unfold setCount. rewrite (await_eq _ _ _ _ _ (setRedis_healthy q d l _ _)).
    cbn [resume]. run_async. now rewrite lookup_insert_eq. }
  assert (Hz : (do! setSize q (JNum (Fin n)) in getSize q) (Redis d [] l)
               = (Resolved (JStr (NumberToString (Fin n))),
                  Redis (<[QUEUE_SIZE := Entry (NumberToString (Fin n)) (expiry q)]> d) []
                        ((l ++ [Sent (SET QUEUE_SIZE (NumberToString (Fin n)) (expiry q)) None])
                           ++ [Sent (GET QUEUE_SIZE) None]))).
  { unfold setSize. rewrite (await_eq _ _ _ _ _ (setRedis_healthy q d l _ _)).
    cbn [resume]. run_async. now rewrite lookup_insert_eq. }
  unfold result, run. rewrite Hc, Hz. cbn [fst snd db ToNumber].
  repeat split; try reflexivity.
  - apply StringToNumber_NumberToString.
  - discriminate.
Qed.

Lemma counters_read_back_as_strings_witness :
  result (do! setCount (lib 5 60) (JNum (Fin 3)) in getCount (lib 5 60))
         (Redis (<[QUEUE_COUNT := Entry "7" None]> ∅) [] [])
  = Resolved (JStr "3").
Proof.
  refine (proj1 (counters_read_back_as_strings (lib 5 60)
                   (<[QUEUE_COUNT := Entry "7" None]> ∅) [] 3 _)).
  unfold safe, MAX_SAFE_INTEGER. lia.
Defined.

(** ** A slot that expires while it is pending *)

(** X16: expiry happens in Redis, not in the class: when a slot runs out of
    time while the count is still alive, the slot reads as Absent and the
    unit it held stays reserved; [removeRequest] on it then resolves to 0
    after one read and gives nothing back. *)
Theorem expired_slot_keeps_its_unit q d l id en ts ec tc dt :
  d !! id = Some en -> ttl en = Some ts -> (ts <= dt)%positive ->
  d !! QUEUE_COUNT = Some ec -> ttl ec = Some tc -> (dt < tc)%positive ->
  let r := advance dt (Redis d [] l) in
  slot id r = Absent /\
  inFlight r = inFlight (Redis d [] l) /\
  result (removeRequest q id) r = Resolved (JNum (Fin 0)) /\
  db (run (removeRequest q id) r) = db r /\
  inFlight (run (removeRequest q id) r) = inFlight (Redis d [] l).
Proof.
  intros Hid Hts Hle Hcount Htc Hlt r.
  assert (Ha : omap (age dt) d !! id = None).
  { rewrite lookup_omap, Hid. cbn. unfold age. rewrite Hts.
    now apply Pos.leb_le in Hle as ->. }
  assert (Hn : omap (age dt) d !! QUEUE_COUNT
               = Some (Entry (value ec) (Some (tc - dt)%positive))).
  { rewrite lookup_omap, Hcount. cbn. unfold age. rewrite Htc.
    destruct (Pos.leb_spec tc dt); [lia|reflexivity]. }
  assert (Hi : inFlight r = inFlight (Redis d [] l)).
  { subst r. unfold inFlight, advance. cbn [db]. now rewrite Hn, Hcount. }
  subst r. unfold advance in *. cbn [db faults log] in *.
  unfold result, run. rewrite (removeRequest_absent q _ l id Ha). cbn [fst snd db].
  unfold slot. cbn [db]. rewrite Ha.
  repeat split; try reflexivity; exact Hi.
Qed.

Lemma expired_slot_keeps_its_unit_witness :
  slot "a" (advance 60 (Redis (<["a" := Entry "pending" (Some 60%positive)]>
                                 (<[QUEUE_COUNT := Entry "1" (Some 90%positive)]> ∅)) [] []))
  = Absent.
Proof.
  refine (proj1 (expired_slot_keeps_its_unit (lib 5 60)
                   (<["a" := Entry "pending" (Some 60%positive)]>
                      (<[QUEUE_COUNT := Entry "1" (Some 90%positive)]> ∅)) [] "a"
                   (Entry "pending" (Some 60%positive)) 60
                   (Entry "1" (Some 90%positive)) 90 60 _ _ _ _ _ _)).
  - apply lookup_insert_eq.
  - reflexivity.
  - reflexivity.
  - rewrite lookup_insert_ne by discriminate. apply lookup_insert_eq.
  - reflexivity.
  - reflexivity.
Defined.
